(** * tricks.py: playlist merging and title printing over a Spotify client

    A shallow embedding of [tricks.py].  The three operations of the script
    ([get_all_track_uris], [merge_playlists], [print_titles]) and its entry
    point [main] talk to the global client [sp]; here they are computations
    in a state-and-exception monad over a [world] that records the calls
    made on the client, the lines printed and the playlists held by the
    remote service.  The client itself is a [service]: its answers, and an
    arbitrary decision, per call and history, whether the call raises. *)

From Stdlib Require Import String Ascii ZArith Arith Bool Lia ZifyNat.
From Stdlib Require Import DecimalString DecimalNat.
From Stdlib Require Import List Permutation.
Import ListNotations.

Local Open Scope string_scope.
Local Open Scope list_scope.
Local Open Scope nat_scope.

(** ** Data returned by the service *)

(** An artist object, as selected by [artists(name)]. *)
Record artist := { a_name : string }.

(** A track object.  [track_artists] is what [track.get("artists")] yields:
    [None] when the key is absent (or null). *)
Record track := {
  track_uri : string;
  track_name : string;
  track_artists : option (list artist)
}.

(** One slot of a page; [item_track] is [item.get("track")], [None] for a
    slot whose track is missing. *)
Record playlist_item := { item_track : option track }.

(** A page of results.  The continuation cursor [next] is represented by the
    page it designates; its absence marks the last page. *)
#[local] Unset Elimination Schemes.
Inductive page := Page (items : list playlist_item) (next : option page).
#[local] Set Elimination Schemes.

Definition page_items (p : page) : list playlist_item :=
  match p with Page items _ => items end.

(** The user object of [sp.current_user()] and the playlist object of
    [sp.user_playlist_create(...)]; the script reads their ["id"]. *)
Record user := { user_id : string }.
Record playlist := { playlist_id : string }.

(** ** Calls, exceptions, world *)

Inductive call :=
| CurrentUser
| PlaylistTracks (playlist_id fields : string)
| Next (cursor : page)
| UserPlaylistCreate (user name : string) (public : bool)
| PlaylistAddItems (playlist_id : string) (items : list string).

Inductive exn :=
| SpotifyException (msg : string)
| UnboundLocalError (var : string).

(** A playlist as the remote service stores it. *)
Record stored := {
  st_id : string;
  st_owner : string;
  st_name : string;
  st_public : bool;
  st_tracks : list string
}.

Record world := {
  calls : list call;        (* calls made on the client, oldest first *)
  stdout : list string;     (* lines printed, oldest first *)
  library : list stored     (* playlists created so far, newest first *)
}.

(** The client.  [fault h c] says whether call [c], made after the calls
    [h], raises, and with which message. *)
Record service := {
  me : string;
  first_page : string -> page;
  new_playlist_id : nat -> string;
  fault : list call -> call -> option string
}.

Inductive outcome (A : Type) :=
| Ok (a : A)
| Err (e : exn).
Arguments Ok {A} a.
Arguments Err {A} e.

Definition M (A : Type) : Type := world -> outcome A * world.

Definition ret {A} (a : A) : M A := fun w => (Ok a, w).

Definition bind {A B} (m : M A) (f : A -> M B) : M B :=
  fun w => match m w with
           | (Ok a, w') => f a w'
           | (Err e, w') => (Err e, w')
           end.

Definition raise {A} (e : exn) : M A := fun w => (Err e, w).

Declare Scope tricks_scope.
Delimit Scope tricks_scope with tricks.
Notation "x <- m ;; k" := (bind m (fun x => k))
  (at level 100, m at next level, right associativity) : tricks_scope.
Notation "m ;; k" := (bind m (fun _ => k))
  (at level 100, right associativity) : tricks_scope.
Local Open Scope tricks_scope.

Definition log (c : call) (w : world) : world :=
  {| calls := calls w ++ [c]; stdout := stdout w; library := library w |}.

Definition emit (line : string) (w : world) : world :=
  {| calls := calls w; stdout := stdout w ++ [line]; library := library w |}.

Definition print (line : string) : M unit := fun w => (Ok tt, emit line w).

Fixpoint add_tracks (id : string) (items : list string) (lib : list stored)
  : list stored :=
  match lib with
  | [] => []
  | p :: lib' =>
      if String.eqb (st_id p) id
      then {| st_id := st_id p; st_owner := st_owner p; st_name := st_name p;
              st_public := st_public p; st_tracks := st_tracks p ++ items |}
           :: lib'
      else p :: add_tracks id items lib'
  end.

Fixpoint lookup (id : string) (lib : list stored) : option stored :=
  match lib with
  | [] => None
  | p :: lib' => if String.eqb (st_id p) id then Some p else lookup id lib'
  end.

(** ** Python helpers *)

(** [str(n)] for a non-negative integer. *)
Definition str_of_nat (n : nat) : string :=
  NilEmpty.string_of_uint (Nat.to_uint n).

(** [%m] and [%d]: two digits, zero padded. *)
Definition two_digits (n : nat) : string :=
  if n <? 10 then ("0" ++ str_of_nat n)%string else str_of_nat n.

Record datetime := {
  year : nat; month : nat; day : nat;
  hour : nat; minute : nat; second : nat
}.

(** [datetime.MAXYEAR], 9999. *)
Definition MAXYEAR : nat := 9 * 1000 + 999.

(** [now.strftime('%Y-%m-%d')]. *)
Definition strftime_Ymd (now : datetime) : string :=
  (str_of_nat (year now) ++ "-" ++ two_digits (month now) ++ "-"
   ++ two_digits (day now))%string.

(** [range(start, stop, step)] for a positive step, unrolled at most [fuel]
    times. *)
Fixpoint range_from (fuel start stop step : nat) : list nat :=
  match fuel with
  | 0 => []
  | S fuel' =>
      if start <? stop
      then start :: range_from fuel' (start + step) stop step
      else []
  end.

Definition py_range (start stop step : nat) : list nat :=
  range_from stop start stop step.

(** [l[i:j]] for [0 <= i <= j]. *)
Definition slice {A} (l : list A) (i j : nat) : list A :=
  firstn (j - i) (skipn i l).

Fixpoint for_each {A} (xs : list A) (body : A -> M unit) : M unit :=
  match xs with
  | [] => ret tt
  | x :: xs' => body x ;; for_each xs' body
  end.

(** [limit is None or len(uris) < limit] *)
Definition under_limit (limit : option Z) (uris : list string) : bool :=
  match limit with
  | None => true
  | Some l => (Z.of_nat (length uris) <? l)%Z
  end.

(** [limit is not None and len(uris) >= limit] *)
Definition limit_reached (limit : option Z) (uris : list string) : bool :=
  match limit with
  | None => false
  | Some l => (Z.of_nat (length uris) >=? l)%Z
  end.

(** [track.get("artists") or []] *)
Definition artists_or_empty (t : track) : list artist :=
  match track_artists t with
  | Some l => l
  | None => []
  end.

Definition BATCH : nat := 100.

Section Tricks.

Variable sp : service.

(** ** The client's methods *)

(** What a successful call changes on the remote side. *)
Definition effect (c : call) (w : world) : world :=
  match c with
  | UserPlaylistCreate u n p =>
      {| calls := calls w; stdout := stdout w;
         library := {| st_id := new_playlist_id sp (length (library w));
                       st_owner := u; st_name := n; st_public := p;
                       st_tracks := [] |} :: library w |}
  | PlaylistAddItems id items =>
      {| calls := calls w; stdout := stdout w;
         library := add_tracks id items (library w) |}
  | _ => w
  end.

(** A call is logged, then either raises or takes effect and answers. *)
Definition request {A} (c : call) (answer : world -> A) : M A :=
  fun w =>
    match fault sp (calls w) c with
    | Some msg => (Err (SpotifyException msg), log c w)
    | None => (Ok (answer w), effect c (log c w))
    end.

Definition sp_current_user : M user :=
  request CurrentUser (fun _ => {| user_id := me sp |}).

Definition sp_playlist_tracks (id fields : string) : M page :=
  request (PlaylistTracks id fields) (fun _ => first_page sp id).

Definition sp_next (cursor : page) : M page :=
  request (Next cursor) (fun _ => cursor).

Definition sp_user_playlist_create (u name : string) (public : bool)
  : M playlist :=
  request (UserPlaylistCreate u name public)
    (fun w => {| playlist_id := new_playlist_id sp (length (library w)) |}).

Definition sp_playlist_add_items (id : string) (items : list string)
  : M unit :=
  request (PlaylistAddItems id items) (fun _ => tt).

(** ** get_all_track_uris *)

(** The [for item in results["items"]] loop with its [break]. *)
Fixpoint collect_items (limit : option Z) (items : list playlist_item)
    (uris : list string) : list string :=
  match items with
  | [] => uris
  | item :: rest =>
      match item_track item with
      | Some t =>
          let uris := uris ++ [track_uri t] in
          if limit_reached limit uris then uris
          else collect_items limit rest uris
      | None => collect_items limit rest uris
      end
  end.

(** The [while] loop, entered with a page in [results].  The page answered
    by [sp.next] is the one its cursor designates. *)
Fixpoint uris_loop (limit : option Z) (results : page) (uris : list string)
    {struct results} : M (list string) :=
  match results with
  | Page items next =>
      if under_limit limit uris then
        let uris := collect_items limit items uris in
        if limit_reached limit uris then ret uris
        else match next with
             | Some cursor =>
                 _ <- sp_next cursor ;; uris_loop limit cursor uris
             | None => ret uris
             end
      else ret uris
  end.

Definition get_all_track_uris (playlist_id : string) (limit : option Z)
  : M (list string) :=
  results <- sp_playlist_tracks playlist_id "items.track.uri,next" ;;
  uris_loop limit results [].

(** ** merge_playlists *)

(** One round of [for i in range(max_len)]. *)
Definition merge_step (tracks1 tracks2 : list string) (merged : list string)
    (i : nat) : list string :=
  let merged :=
    if i <? length tracks1 then merged ++ [nth i tracks1 ""] else merged in
  if i <? length tracks2 then merged ++ [nth i tracks2 ""] else merged.

Definition merge_tracks (tracks1 tracks2 : list string) : list string :=
  let max_len := Nat.max (length tracks1) (length tracks2) in
  fold_left (merge_step tracks1 tracks2) (seq 0 max_len) [].

(** [merged[i : i + 100]] for each [i] of [range(0, len(merged), 100)]. *)
Definition batches (merged : list string) : list (list string) :=
  map (fun i => slice merged i (i + BATCH))
      (py_range 0 (length merged) BATCH).

Definition summary (new_name : string) (merged : list string) : string :=
  ("created playlist '" ++ new_name ++ "' with "
   ++ str_of_nat (length merged) ++ " tracks.")%string.

Definition merge_playlists (src1_id src2_id new_name : string)
    (per_src_limit : Z) : M unit :=
  u <- sp_current_user ;;
  let user_id := user_id u in
  tracks1 <- get_all_track_uris src1_id (Some per_src_limit) ;;
  tracks2 <- get_all_track_uris src2_id (Some per_src_limit) ;;
  let merged := merge_tracks tracks1 tracks2 in
  new_pl <- sp_user_playlist_create user_id new_name false ;;
  for_each (batches merged)
    (fun batch => sp_playlist_add_items (playlist_id new_pl) batch) ;;
  print (summary new_name merged).

(** ** print_titles *)

(** The [for item in results["items"]] loop; [artist_name] is the local
    variable of that name, [None] while it is unbound. *)
Fixpoint titles_items (items : list playlist_item)
    (artist_name : option string) : M (option string) :=
  match items with
  | [] => ret artist_name
  | item :: rest =>
      match item_track item with
      | None => titles_items rest artist_name
      | Some t =>
          let name := track_name t in
          let artist_name :=
            match artists_or_empty t with
            | a :: _ => Some (a_name a)
            | [] => artist_name
            end in
          match artist_name with
          | None => raise (UnboundLocalError "artist_name")
          | Some a =>
              print (name ++ " - " ++ a)%string ;;
              titles_items rest (Some a)
          end
      end
  end.

(** The [while results] loop. *)
Fixpoint titles_loop (results : page) (artist_name : option string)
    {struct results} : M unit :=
  match results with
  | Page items next =>
      artist_name <- titles_items items artist_name ;;
      match next with
      | Some cursor =>
          _ <- sp_next cursor ;; titles_loop cursor artist_name
      | None => ret tt
      end
  end.

Definition print_titles (playlist_id : string) : M unit :=
  results <- sp_playlist_tracks playlist_id
               "items(track(name, artists(name))),next" ;;
  titles_loop results None.

(** ** main *)

(** The parsed command line: the sub-command and its options; [name] is
    [None] when [--name] was not given. *)
Inductive namespace :=
| Merge (src1 src2 : string) (name : option string) (per_src_limit : Z)
| Titles (playlist : string).

Definition default_name (now : datetime) : string :=
  ("Mixed playlist " ++ strftime_Ymd now)%string.

(** [args.name if args.name else f"Mixed playlist {...}"] *)
Definition name_or_default (now : datetime) (name : option string) : string :=
  match name with
  | Some n => if String.eqb n "" then default_name now else n
  | None => default_name now
  end.

Definition main (now : datetime) (args : namespace) : M unit :=
  match args with
  | Merge src1 src2 name per_src_limit =>
      let new_name := name_or_default now name in
      merge_playlists src1 src2 new_name per_src_limit
  | Titles playlist => print_titles playlist
  end.

(** ** Scripts

    What a run does is a list of events fixed by the answers of the
    service; the faults only decide where it is cut short. *)

Inductive event :=
| Call (c : call)
| Print (line : string)
| Raise (e : exn).

Fixpoint replay (evs : list event) (w : world) : option exn * world :=
  match evs with
  | [] => (None, w)
  | Call c :: evs' =>
      match fault sp (calls w) c with
      | Some msg => (Some (SpotifyException msg), log c w)
      | None => replay evs' (effect c (log c w))
      end
  | Print line :: evs' => replay evs' (emit line w)
  | Raise e :: _ => (Some e, w)
  end.

Definition finish {A} (a : A) (r : option exn * world) : outcome A * world :=
  match r with
  | (None, w) => (Ok a, w)
  | (Some e, w) => (Err e, w)
  end.

Fixpoint calls_of (evs : list event) : list call :=
  match evs with
  | [] => []
  | Call c :: evs' => c :: calls_of evs'
  | _ :: evs' => calls_of evs'
  end.

Fixpoint prints_of (evs : list event) : list string :=
  match evs with
  | [] => []
  | Print l :: evs' => l :: prints_of evs'
  | _ :: evs' => prints_of evs'
  end.

(** No call of [cs], made in this order after the calls [h], raises. *)
Definition quiet (h cs : list call) : Prop :=
  forall pre c post, cs = pre ++ c :: post -> fault sp (h ++ pre) c = None.

(** The service never raises. *)
Definition reliable : Prop := forall h c, fault sp h c = None.

(** The cursors followed by [uris_loop], and the list it returns. *)
Fixpoint walk (limit : option Z) (results : page) (uris : list string)
    {struct results} : list page * list string :=
  match results with
  | Page items next =>
      if under_limit limit uris then
        let uris := collect_items limit items uris in
        if limit_reached limit uris then ([], uris)
        else match next with
             | Some cursor =>
                 let (cs, r) := walk limit cursor uris in (cursor :: cs, r)
             | None => ([], uris)
             end
      else ([], uris)
  end.

Definition fetched (id : string) (limit : option Z) : list string :=
  snd (walk limit (first_page sp id) []).

Definition followed (id : string) (limit : option Z) : list page :=
  fst (walk limit (first_page sp id) []).

Definition fetch_calls (id fields : string) (limit : option Z) : list call :=
  PlaylistTracks id fields :: map Next (followed id limit).

Definition URI_FIELDS : string := "items.track.uri,next".

(** The sequence [merge_playlists] hands to the batch loop. *)
Definition merged_of (src1 src2 : string) (lim : Z) : list string :=
  merge_tracks (fetched src1 (Some lim)) (fetched src2 (Some lim)).

(** The calls of [merge_playlists] up to the creation of the playlist. *)
Definition merge_prelude (src1 src2 new_name : string) (lim : Z) : list call :=
  CurrentUser :: fetch_calls src1 URI_FIELDS (Some lim)
  ++ fetch_calls src2 URI_FIELDS (Some lim)
  ++ [UserPlaylistCreate (me sp) new_name false].

Definition add_calls (id : string) (bs : list (list string)) : list call :=
  map (PlaylistAddItems id) bs.

Definition merge_script (src1 src2 new_name : string) (lim : Z) (w : world)
  : list event :=
  let merged := merged_of src1 src2 lim in
  let id := new_playlist_id sp (length (library w)) in
  map Call (merge_prelude src1 src2 new_name lim
            ++ add_calls id (batches merged))
  ++ [Print (summary new_name merged)].

(** Events of [titles_items], and the value of [artist_name] after it. *)
Fixpoint items_script (items : list playlist_item)
    (artist_name : option string) : list event * option string :=
  match items with
  | [] => ([], artist_name)
  | item :: rest =>
      match item_track item with
      | None => items_script rest artist_name
      | Some t =>
          let artist_name :=
            match artists_or_empty t with
            | a :: _ => Some (a_name a)
            | [] => artist_name
            end in
          match artist_name with
          | None => ([Raise (UnboundLocalError "artist_name")], None)
          | Some a =>
              let (evs, r) := items_script rest (Some a) in
              (Print (track_name t ++ " - " ++ a)%string :: evs, r)
          end
      end
  end.

Fixpoint titles_script (results : page) (artist_name : option string)
    {struct results} : list event :=
  match results with
  | Page items next =>
      let (evs, artist_name) := items_script items artist_name in
      evs ++ match next with
             | Some cursor =>
                 Call (Next cursor) :: titles_script cursor artist_name
             | None => []
             end
  end.

Definition TITLE_FIELDS : string := "items(track(name, artists(name))),next".

Definition print_titles_script (id : string) : list event :=
  Call (PlaylistTracks id TITLE_FIELDS)
  :: titles_script (first_page sp id) None.

(** The world after the calls [cs], all successful. *)
Definition perform (cs : list call) (w : world) : world :=
  fold_left (fun w c => effect c (log c w)) cs w.

(** Calls that only read. *)
Definition readonly (c : call) : bool :=
  match c with
  | CurrentUser | PlaylistTracks _ _ | Next _ => true
  | _ => false
  end.

End Tricks.

(** ** Notions of the specification *)

(** The chain of pages starting at [p]. *)
Fixpoint pages_of (p : page) : list page :=
  match p with
  | Page _ next =>
      p :: match next with
           | Some q => pages_of q
           | None => []
           end
  end.

(** The tracks attached to the slots of a list of items, in order. *)
Fixpoint item_tracks (items : list playlist_item) : list track :=
  match items with
  | [] => []
  | item :: rest =>
      match item_track item with
      | Some t => t :: item_tracks rest
      | None => item_tracks rest
      end
  end.

Definition item_uris (items : list playlist_item) : list string :=
  map track_uri (item_tracks items).

Definition page_tracks (p : page) : list track := item_tracks (page_items p).

(** All attached tracks of a playlist, in page order. *)
Definition all_tracks (p : page) : list track :=
  flat_map page_tracks (pages_of p).

Definition all_uris (p : page) : list string := map track_uri (all_tracks p).

(** Number of attached tracks on the first [k] pages. *)
Definition tracks_upto (k : nat) (p : page) : nat :=
  length (flat_map page_tracks (firstn k (pages_of p))).

(** Positional interleaving: alternate, then the tail of the longer one. *)
Fixpoint interleave {A} (a b : list A) : list A :=
  match a, b with
  | x :: a', y :: b' => x :: y :: interleave a' b'
  | [], _ => b
  | _, [] => a
  end.

(** [a / b] rounded up. *)
Definition ceil_div (a b : nat) : nat :=
  a / b + (if a mod b =? 0 then 0 else 1).

(** The name of the primary artist of a track, if it lists any. *)
Definition primary (t : track) : option string :=
  match artists_or_empty t with
  | a :: _ => Some (a_name a)
  | [] => None
  end.

(** The primary artist of the most recent track of [ts] that has one. *)
Definition last_primary (ts : list track) : option string :=
  match find (fun t => match primary t with Some _ => true | None => false end)
             (rev ts) with
  | Some t => primary t
  | None => None
  end.

(** The value of [artist_name] after the tracks [ts], from [a]. *)
Definition carry (a : option string) (ts : list track) : option string :=
  fold_left (fun a t => match primary t with Some x => Some x | None => a end)
            ts a.

(** The lines printed for the tracks [ts], entered with [artist_name = a],
    as long as the variable is bound. *)
Fixpoint lines_from (a : option string) (ts : list track) : list string :=
  match ts with
  | [] => []
  | t :: ts' =>
      match primary t, a with
      | Some x, _ | None, Some x =>
          (track_name t ++ " - " ++ x)%string :: lines_from (Some x) ts'
      | None, None => []
      end
  end.

(** [artist_name] is bound when the first track of [ts] reads it. *)
Definition ready (a : option string) (ts : list track) : Prop :=
  a <> None \/ forall t, hd_error ts = Some t -> primary t <> None.

Definition no_raise (evs : list event) : bool :=
  forallb (fun ev => match ev with Raise _ => false | _ => true end) evs.

(** Reading a decimal numeral back. *)
Definition parse_nat (s : string) : option nat :=
  option_map Nat.of_uint (NilEmpty.uint_of_string s).

(** [s] is [YYYY-MM-DD] for the given year, month and day. *)
Definition iso_date (s : string) (y m d : nat) : Prop :=
  exists ys ms ds : string,
    s = (ys ++ "-" ++ ms ++ "-" ++ ds)%string /\
    String.length ys = 4 /\ String.length ms = 2 /\ String.length ds = 2 /\
    parse_nat ys = Some y /\ parse_nat ms = Some m /\ parse_nat ds = Some d.

(** The [add_items] and [create] calls of a log. *)
Fixpoint items_added (cs : list call) : list (string * list string) :=
  match cs with
  | [] => []
  | PlaylistAddItems id b :: cs' => (id, b) :: items_added cs'
  | _ :: cs' => items_added cs'
  end.

Fixpoint creations (cs : list call) : list (string * string * bool) :=
  match cs with
  | [] => []
  | UserPlaylistCreate u n p :: cs' => (u, n, p) :: creations cs'
  | _ :: cs' => creations cs'
  end.

(** [quiet], decided. *)
Fixpoint quietb (sp : service) (h cs : list call) : bool :=
  match cs with
  | [] => true
  | c :: cs' =>
      match fault sp h c with
      | None => quietb sp (h ++ [c]) cs'
      | Some _ => false
      end
  end.

(** ** Sample playlists and services *)

Definition song (uri name : string) (artists : list string) : playlist_item :=
  {| item_track :=
       Some {| track_uri := uri; track_name := name;
               track_artists := Some (map Build_artist artists) |} |}.

Definition hole : playlist_item := {| item_track := None |}.

(** Three tracks on two pages, one slot without a track. *)
Definition playlist_A : page :=
  Page [song "a0" "A0" ["Ann"]; hole; song "a1" "A1" ["Ann"]]
       (Some (Page [song "a2" "A2" ["Abe"]] None)).

Definition playlist_B : page :=
  Page [song "b0" "B0" ["Bob"]; song "b1" "B1" ["Bob"]] None.

(** 120 tracks on one page. *)
Definition playlist_L : page :=
  Page (map (fun n => song ("t" ++ str_of_nat n) "T" ["Tom"]) (seq 0 120))
       None.

(** The playlist of the specification's titles example. *)
Definition playlist_T : page := Page [song "x" "X" ["Y"]; song "z" "Z" []] None.

(** A playlist whose first attached track lists no artist. *)
Definition playlist_U : page :=
  Page [hole] (Some (Page [song "z" "Z" []; song "x" "X" ["Y"]] None)).

Definition sample_pages (id : string) : page :=
  if String.eqb id "A" then playlist_A
  else if String.eqb id "B" then playlist_B
  else if String.eqb id "L" then playlist_L
  else if String.eqb id "T" then playlist_T
  else playlist_U.

Definition sample (fault : list call -> call -> option string) : service :=
  {| me := "user-1";
     first_page := sample_pages;
     new_playlist_id := fun n => ("playlist-" ++ str_of_nat n)%string;
     fault := fault |}.

Definition never (h : list call) (c : call) : option string := None.

Definition is_add (c : call) : bool :=
  match c with PlaylistAddItems _ _ => true | _ => false end.

(** The second batch write raises. *)
Definition second_write_fails (h : list call) (c : call) : option string :=
  if is_add c && existsb is_add h then Some "502 Bad Gateway" else None.

(** The user lookup raises. *)
Definition user_lookup_fails (h : list call) (c : call) : option string :=
  match c with
  | CurrentUser => Some "401 Unauthorized"
  | _ => None
  end.

Definition fresh : world := {| calls := []; stdout := []; library := [] |}.

Definition a_date : datetime :=
  {| year := 2024; month := 3; day := 9; hour := 18; minute := 5; second := 0 |}.

(** * Properties *)

(** Induction along a chain of pages. *)
Fixpoint page_chain_ind (P : page -> Prop)
    (Hlast : forall items, P (Page items None))
    (Hmore : forall items q, P q -> P (Page items (Some q)))
    (p : page) : P p :=
  match p with
  | Page items None => Hlast items
  | Page items (Some q) => Hmore items q (page_chain_ind P Hlast Hmore q)
  end.

Section Replay.

Variable sp : service.

Lemma calls_log c w : calls (log c w) = calls w ++ [c].
Proof. reflexivity. Qed.

Lemma calls_effect c w : calls (effect sp c w) = calls w.
Proof. destruct c; reflexivity. Qed.

Lemma stdout_effect c w : stdout (effect sp c w) = stdout w.
Proof. destruct c; reflexivity. Qed.

Lemma effect_readonly c w : readonly c = true -> effect sp c w = w.
Proof. destruct c; simpl; congruence. Qed.

Lemma replay_app evs1 evs2 w :
  replay sp (evs1 ++ evs2) w =
  match replay sp evs1 w with
  | (None, w1) => replay sp evs2 w1
  | r => r
  end.
Proof.
  revert w; induction evs1 as [|ev evs1 IH]; intro w; simpl.
  - reflexivity.
  - destruct ev as [c|l|e]; simpl; auto.
    destruct (fault sp (calls w) c); auto.
Qed.

Lemma request_replay {A} (c : call) (answer : world -> A) w :
  request sp c answer w = finish (answer w) (replay sp [Call c] w).
Proof.
  unfold request; simpl. destruct (fault sp (calls w) c); reflexivity.
Qed.

(** Sequencing two computations that follow scripts follows the scripts
    one after the other. *)
Lemma bind_replay {A B} (m : M A) (f : A -> M B) w evs1 evs2 a b :
  m w = finish a (replay sp evs1 w) ->
  (forall w1, replay sp evs1 w = (None, w1) ->
              f a w1 = finish b (replay sp evs2 w1)) ->
  bind m f w = finish b (replay sp (evs1 ++ evs2) w).
Proof.
  intros Hm Hf. unfold bind. rewrite Hm, replay_app.
  destruct (replay sp evs1 w) as [[e|] w1]; simpl.
  - reflexivity.
  - apply Hf; reflexivity.
Qed.

Lemma uris_loop_replay limit p :
  forall uris w,
    uris_loop sp limit p uris w =
    finish (snd (walk limit p uris))
           (replay sp (map Call (map Next (fst (walk limit p uris)))) w).
Proof.
  induction p as [items|items q IH] using page_chain_ind; intros uris w; simpl.
  - destruct (under_limit limit uris); [|reflexivity].
    destruct (limit_reached limit (collect_items limit items uris));
      reflexivity.
  - destruct (under_limit limit uris); [|reflexivity].
    destruct (limit_reached limit (collect_items limit items uris));
      [reflexivity|].
    destruct (walk limit q (collect_items limit items uris)) as [cs r] eqn:E.
    change (map Call (map Next (fst (q :: cs, r))))
      with ([Call (Next q)] ++ map Call (map Next cs)).
    apply bind_replay with (a := q).
    + exact (request_replay _ (fun _ => q) w).
    + intros w1 _. rewrite IH, E. reflexivity.
Qed.

Lemma get_all_track_uris_replay id limit w :
  get_all_track_uris sp id limit w =
  finish (fetched sp id limit)
         (replay sp (map Call (fetch_calls sp id URI_FIELDS limit)) w).
Proof.
  unfold get_all_track_uris, fetch_calls, fetched, followed.
  change (map Call (PlaylistTracks id URI_FIELDS
                    :: map Next (fst (walk limit (first_page sp id) []))))
    with ([Call (PlaylistTracks id URI_FIELDS)]
          ++ map Call (map Next (fst (walk limit (first_page sp id) [])))).
  apply bind_replay with (a := first_page sp id).
  - exact (request_replay _ (fun _ => first_page sp id) w).
  - intros w1 _. apply uris_loop_replay.
Qed.

Lemma add_loop_replay id bs :
  forall w,
    for_each bs (fun batch => sp_playlist_add_items sp id batch) w =
    finish tt (replay sp (map Call (add_calls id bs)) w).
Proof.
  induction bs as [|b bs IH]; intro w.
  - reflexivity.
  - cbn [for_each].
    change (map Call (add_calls id (b :: bs)))
      with ([Call (PlaylistAddItems id b)] ++ map Call (add_calls id bs)).
    apply bind_replay with (a := tt).
    + exact (request_replay _ (fun _ => tt) w).
    + intros w1 _. apply IH.
Qed.

Lemma perform_app cs1 cs2 w :
  perform sp (cs1 ++ cs2) w = perform sp cs2 (perform sp cs1 w).
Proof. apply fold_left_app. Qed.

Lemma perform_cons c cs w :
  perform sp (c :: cs) w = perform sp cs (effect sp c (log c w)).
Proof. reflexivity. Qed.

Lemma calls_perform cs : forall w, calls (perform sp cs w) = calls w ++ cs.
Proof.
  induction cs as [|c cs IH]; intro w.
  - simpl. now rewrite app_nil_r.
  - rewrite perform_cons, IH, calls_effect, calls_log.
    now rewrite <- app_assoc.
Qed.

Lemma stdout_perform cs : forall w, stdout (perform sp cs w) = stdout w.
Proof.
  induction cs as [|c cs IH]; intro w.
  - reflexivity.
  - now rewrite perform_cons, IH, stdout_effect.
Qed.

Lemma library_perform_readonly cs :
  forallb readonly cs = true ->
  forall w, library (perform sp cs w) = library w.
Proof.
  induction cs as [|c cs IH]; intros H w.
  - reflexivity.
  - simpl in H. apply andb_prop in H as [Hc Hcs].
    rewrite perform_cons, IH by assumption. now rewrite effect_readonly.
Qed.

Lemma replay_calls_inv cs :
  forall w w1, replay sp (map Call cs) w = (None, w1) -> w1 = perform sp cs w.
Proof.
  induction cs as [|c cs IH]; intros w w1.
  - simpl. congruence.
  - rewrite perform_cons. simpl.
    destruct (fault sp (calls w) c); [discriminate|]. apply IH.
Qed.

Lemma quiet_cons h c cs :
  quiet sp h (c :: cs) -> fault sp h c = None /\ quiet sp (h ++ [c]) cs.
Proof.
  intro Q; split.
  - specialize (Q [] c cs eq_refl). now rewrite app_nil_r in Q.
  - intros pre c' post ->. rewrite <- app_assoc. simpl.
    apply (Q (c :: pre) c' post). reflexivity.
Qed.

Lemma reliable_quiet h cs : reliable sp -> quiet sp h cs.
Proof. intros R pre c post _. apply R. Qed.

(** Calls that do not raise all take effect. *)
Lemma replay_quiet cs :
  forall w, quiet sp (calls w) cs ->
            replay sp (map Call cs) w = (None, perform sp cs w).
Proof.
  induction cs as [|c cs IH]; intros w Q.
  - reflexivity.
  - apply quiet_cons in Q as [F Q]. rewrite perform_cons. simpl.
    rewrite F. apply IH. now rewrite calls_effect, calls_log.
Qed.

Lemma readonly_fetch_calls id fields limit :
  forallb readonly (fetch_calls sp id fields limit) = true.
Proof.
  unfold fetch_calls; simpl.
  induction (followed sp id limit); simpl; auto.
Qed.

(** [merge_playlists] follows its script. *)
Lemma merge_playlists_replay src1 src2 new_name lim w :
  merge_playlists sp src1 src2 new_name lim w =
  finish tt (replay sp (merge_script sp src1 src2 new_name lim w) w).
Proof.
  unfold merge_playlists, merge_script, merge_prelude.
  set (id := new_playlist_id sp (length (library w))).
  set (f1 := fetch_calls sp src1 URI_FIELDS (Some lim)).
  set (f2 := fetch_calls sp src2 URI_FIELDS (Some lim)).
  set (merged := merged_of sp src1 src2 lim).
  replace (map Call ((CurrentUser :: f1 ++ f2
                      ++ [UserPlaylistCreate (me sp) new_name false])
                     ++ add_calls id (batches merged))
           ++ [Print (summary new_name merged)])
    with ([Call CurrentUser] ++ map Call f1 ++ map Call f2
          ++ [Call (UserPlaylistCreate (me sp) new_name false)]
          ++ map Call (add_calls id (batches merged))
          ++ [Print (summary new_name merged)]).
  2:{ generalize f1 f2 (add_calls id (batches merged)); intros l1 l2 l3.
      simpl. rewrite !map_app, <- !app_assoc. reflexivity. }
  apply bind_replay with (a := {| user_id := me sp |}).
  { exact (request_replay _ (fun _ => {| user_id := me sp |}) w). }
  intros w1 H1. apply (replay_calls_inv [CurrentUser]) in H1.
  apply bind_replay with (a := fetched sp src1 (Some lim)).
  { apply get_all_track_uris_replay. }
  intros w2 H2. apply replay_calls_inv in H2.
  apply bind_replay with (a := fetched sp src2 (Some lim)).
  { apply get_all_track_uris_replay. }
  intros w3 H3. apply replay_calls_inv in H3.
  assert (L : library w3 = library w).
  { subst w3 w2 w1.
    rewrite !library_perform_readonly;
      solve [reflexivity | apply readonly_fetch_calls]. }
  apply bind_replay with (a := {| playlist_id := id |}).
  { unfold id. rewrite <- L.
    exact (request_replay _
             (fun w => {| playlist_id :=
                            new_playlist_id sp (length (library w)) |}) w3). }
  intros w4 _.
  apply bind_replay with (a := tt).
  { apply add_loop_replay. }
  intros w5 _. reflexivity.
Qed.

Lemma titles_items_replay items :
  forall artist_name w,
    titles_items items artist_name w =
    finish (snd (items_script items artist_name))
           (replay sp (fst (items_script items artist_name)) w).
Proof.
  induction items as [|item rest IH]; intros a w; simpl.
  - reflexivity.
  - destruct (item_track item) as [t|]; [|apply IH].
    destruct (match artists_or_empty t with
              | [] => a
              | x :: _ => Some (a_name x)
              end) as [a'|]; [|reflexivity].
    destruct (items_script rest (Some a')) as [evs r] eqn:E.
    cbn [fst snd].
    apply (bind_replay _ _ w [Print _] evs tt r).
    + reflexivity.
    + intros w1 _. rewrite IH, E. reflexivity.
Qed.

Lemma titles_loop_replay p :
  forall artist_name w,
    titles_loop sp p artist_name w =
    finish tt (replay sp (titles_script p artist_name) w).
Proof.
  induction p as [items|items q IH] using page_chain_ind; intros a w;
    cbn [titles_loop titles_script];
    destruct (items_script items a) as [evs a'] eqn:E.
  - apply bind_replay with (a := a').
    + rewrite titles_items_replay, E. reflexivity.
    + intros w1 _. reflexivity.
  - apply bind_replay with (a := a').
    + rewrite titles_items_replay, E. reflexivity.
    + intros w1 _.
      change (Call (Next q) :: titles_script q a')
        with ([Call (Next q)] ++ titles_script q a').
      apply bind_replay with (a := q).
      * exact (request_replay _ (fun _ => q) w1).
      * intros w2 _. apply IH.
Qed.

Lemma print_titles_replay id w :
  print_titles sp id w = finish tt (replay sp (print_titles_script sp id) w).
Proof.
  unfold print_titles, print_titles_script.
  change (Call (PlaylistTracks id TITLE_FIELDS)
          :: titles_script (first_page sp id) None)
    with ([Call (PlaylistTracks id TITLE_FIELDS)]
          ++ titles_script (first_page sp id) None).
  apply bind_replay with (a := first_page sp id).
  - exact (request_replay _ (fun _ => first_page sp id) w).
  - intros w1 _. apply titles_loop_replay.
Qed.

End Replay.

(** ** The paginator *)

Ltac zbool :=
  repeat match goal with
    | H : (_ >=? _)%Z = true |- _ =>
        rewrite Z.geb_leb in H; apply Z.leb_le in H
    | H : (_ >=? _)%Z = false |- _ =>
        rewrite Z.geb_leb in H; apply Z.leb_gt in H
    | H : (_ <? _)%Z = true |- _ => apply Z.ltb_lt in H
    | H : (_ <? _)%Z = false |- _ => apply Z.ltb_ge in H
    end.

Section Paginator.

Lemma all_uris_page items next :
  all_uris (Page items next) =
  item_uris items ++ match next with
                     | Some q => all_uris q
                     | None => []
                     end.
Proof.
  unfold all_uris, all_tracks, item_uris. cbn [pages_of flat_map].
  rewrite map_app. destruct next; reflexivity.
Qed.

Lemma pages_of_head p : pages_of p = p :: tl (pages_of p).
Proof. destruct p; reflexivity. Qed.

Lemma tracks_upto_more k items q :
  tracks_upto (S k) (Page items (Some q)) =
  length (item_uris items) + tracks_upto k q.
Proof.
  unfold tracks_upto, item_uris. cbn [pages_of firstn flat_map].
  rewrite length_app, length_map. reflexivity.
Qed.

Lemma tracks_upto_one items next :
  tracks_upto 1 (Page items next) = length (item_uris items).
Proof.
  unfold tracks_upto, item_uris. cbn [pages_of firstn flat_map].
  rewrite app_nil_r, length_map. reflexivity.
Qed.

Lemma collect_items_none items :
  forall uris, collect_items None items uris = uris ++ item_uris items.
Proof.
  induction items as [|item rest IH]; intro uris; unfold item_uris; simpl.
  - now rewrite app_nil_r.
  - destruct (item_track item) as [t|]; simpl.
    + rewrite IH, <- app_assoc. reflexivity.
    + apply IH.
Qed.

Lemma collect_items_some L items :
  forall uris,
    (Z.of_nat (length uris) < L)%Z ->
    collect_items (Some L) items uris =
    uris ++ firstn (Z.to_nat L - length uris) (item_uris items).
Proof.
  induction items as [|item rest IH]; intros uris H; unfold item_uris; simpl.
  - now rewrite firstn_nil, app_nil_r.
  - destruct (item_track item) as [t|]; simpl.
    + rewrite length_app; simpl.
      destruct (Z.of_nat (length uris + 1) >=? L)%Z eqn:E; zbool.
      * replace (Z.to_nat L - length uris) with 1 by lia. reflexivity.
      * rewrite IH by (rewrite length_app; simpl; lia).
        rewrite length_app; simpl.
        replace (Z.to_nat L - length uris)
          with (S (Z.to_nat L - (length uris + 1))) by lia.
        rewrite <- app_assoc. reflexivity.
    + now apply IH.
Qed.

Lemma walk_none p :
  forall uris, walk None p uris = (tl (pages_of p), uris ++ all_uris p).
Proof.
  induction p as [items|items q IH] using page_chain_ind; intro uris;
    rewrite all_uris_page; cbn [walk under_limit limit_reached pages_of tl];
    rewrite collect_items_none.
  - now rewrite app_nil_r.
  - rewrite IH, <- pages_of_head, <- app_assoc. reflexivity.
Qed.

Lemma walk_some_uris L p :
  forall uris,
    snd (walk (Some L) p uris) =
    uris ++ firstn (Z.to_nat L - length uris) (all_uris p).
Proof.
  induction p as [items|items q IH] using page_chain_ind; intro uris;
    rewrite all_uris_page; cbn [walk under_limit limit_reached].
  - destruct (Z.of_nat (length uris) <? L)%Z eqn:U; zbool.
    + rewrite collect_items_some by lia. rewrite app_nil_r.
      destruct (_ >=? L)%Z; reflexivity.
    + replace (Z.to_nat L - length uris) with 0 by lia.
      now rewrite app_nil_r.
  - destruct (Z.of_nat (length uris) <? L)%Z eqn:U; zbool.
    + rewrite collect_items_some by lia.
      set (k := Z.to_nat L - length uris).
      destruct (_ >=? L)%Z eqn:R; zbool.
      * rewrite length_app, length_firstn in R.
        rewrite firstn_app.
        replace (k - length (item_uris items)) with 0 by lia.
        cbn [snd firstn]. now rewrite app_nil_r.
      * rewrite length_app, length_firstn in R.
        destruct (walk (Some L) q _) as [cs r] eqn:E.
        cbn [snd]. change r with (snd (cs, r)). rewrite <- E, IH.
        rewrite length_app, length_firstn.
        rewrite firstn_app, <- app_assoc.
        rewrite (firstn_all2 (n := k)) by lia.
        do 3 f_equal. subst k. lia.
    + replace (Z.to_nat L - length uris) with 0 by lia.
      now rewrite app_nil_r.
Qed.

(** The cursors followed under a limit: a prefix of the chain, cut at the
    first page on which the limit is reached. *)
Lemma walk_some_pages L p :
  forall uris,
  exists k,
    fst (walk (Some L) p uris) = firstn k (tl (pages_of p)) /\
    k <= length (tl (pages_of p)) /\
    (k = length (tl (pages_of p)) \/
     (L <= Z.of_nat (length uris + tracks_upto (S k) p))%Z) /\
    (forall j, j < k ->
               (Z.of_nat (length uris + tracks_upto (S j) p) < L)%Z).
Proof.
  induction p as [items|items q IH] using page_chain_ind; intro uris.
  - exists 0. cbn [walk pages_of tl firstn length].
    split; [|split; [|split]]; try lia; auto.
    destruct (under_limit _ _); [destruct (limit_reached _ _)|]; reflexivity.
  - cbn [walk under_limit limit_reached pages_of tl].
    destruct (Z.of_nat (length uris) <? L)%Z eqn:U; zbool.
    + rewrite collect_items_some by lia.
      set (k := Z.to_nat L - length uris).
      destruct (_ >=? L)%Z eqn:R; zbool.
      * rewrite length_app, length_firstn in R.
        exists 0. cbn [fst firstn]. rewrite tracks_upto_one.
        split; [|split; [|split]]; try lia; auto.
      * rewrite length_app, length_firstn in R.
        assert (Hk : length (item_uris items) < k) by lia.
        rewrite firstn_all2 by lia.
        destruct (IH (uris ++ item_uris items)) as (k' & E & B & St & N).
        destruct (walk (Some L) q _) as [cs r]. cbn [fst] in *.
        rewrite length_app in St, N.
        exists (S k'). rewrite (pages_of_head q) in *.
        cbn [firstn length tl] in *. rewrite E.
        split; [|split; [|split]].
        -- reflexivity.
        -- lia.
        -- destruct St as [St|St].
           ++ left. lia.
           ++ right. rewrite tracks_upto_more. lia.
        -- intros [|j] Hj.
           ++ rewrite tracks_upto_one. lia.
           ++ rewrite tracks_upto_more. specialize (N j). lia.
    + exists 0. cbn [fst firstn].
      split; [|split; [|split]]; try lia; auto.
Qed.

End Paginator.

(** ** Interleaving *)

Section Interleave.

Lemma interleave_nil_r {A} (a : list A) : interleave a [] = a.
Proof. destruct a; reflexivity. Qed.

Lemma interleave_length {A} (a : list A) :
  forall b, length (interleave a b) = length a + length b.
Proof.
  induction a as [|x a IH]; intros [|y b]; simpl; auto.
  rewrite IH. lia.
Qed.

Lemma skipn_nth {A} (d : A) (l : list A) :
  forall k, k < length l -> skipn k l = nth k l d :: skipn (S k) l.
Proof.
  induction l as [|x l IH]; intros k H; simpl in H.
  - lia.
  - destruct k as [|k]; [reflexivity|].
    change (skipn k l = nth k l d :: skipn (S k) l). apply IH. lia.
Qed.

Lemma merge_rounds tracks1 tracks2 n :
  forall k merged,
    fold_left (merge_step tracks1 tracks2) (seq k n) merged =
    merged ++ interleave (firstn n (skipn k tracks1))
                         (firstn n (skipn k tracks2)).
Proof.
  induction n as [|n IH]; intros k merged.
  - simpl. now rewrite app_nil_r.
  - cbn [seq fold_left]. rewrite IH. unfold merge_step.
    destruct (Nat.ltb_spec k (length tracks1)) as [H1|H1];
      destruct (Nat.ltb_spec k (length tracks2)) as [H2|H2].
    + rewrite (skipn_nth "" tracks1 k H1), (skipn_nth "" tracks2 k H2).
      cbn [firstn interleave]. rewrite <- !app_assoc. reflexivity.
    + rewrite (skipn_nth "" tracks1 k H1).
      rewrite (skipn_all2 tracks2 (n := k)), (skipn_all2 tracks2 (n := S k))
        by lia.
      rewrite !firstn_nil, !interleave_nil_r. cbn [firstn].
      rewrite <- app_assoc. reflexivity.
    + rewrite (skipn_nth "" tracks2 k H2).
      rewrite (skipn_all2 tracks1 (n := k)), (skipn_all2 tracks1 (n := S k))
        by lia.
      rewrite !firstn_nil. cbn [firstn interleave].
      rewrite <- app_assoc. reflexivity.
    + rewrite (skipn_all2 tracks1 (n := k)), (skipn_all2 tracks1 (n := S k)),
        (skipn_all2 tracks2 (n := k)), (skipn_all2 tracks2 (n := S k))
        by lia.
      rewrite !firstn_nil. reflexivity.
Qed.

Lemma merge_tracks_interleave tracks1 tracks2 :
  merge_tracks tracks1 tracks2 = interleave tracks1 tracks2.
Proof.
  unfold merge_tracks. rewrite merge_rounds. cbn [skipn app].
  rewrite !firstn_all2 by lia. reflexivity.
Qed.

End Interleave.

(** ** Batches *)

Section Batches.

(** The fuel of [py_range] is enough: more of it changes nothing. *)
Lemma range_from_fuel step stop fuel :
  forall start fuel',
    0 < step ->
    stop - start <= fuel -> stop - start <= fuel' ->
    range_from fuel start stop step = range_from fuel' start stop step.
Proof.
  induction fuel as [|fuel IH]; intros start [|fuel'] Hs H H';
    cbn [range_from]; try reflexivity;
    destruct (Nat.ltb_spec start stop) as [L|L]; try reflexivity; try lia.
  f_equal. apply IH; lia.
Qed.

Lemma slice_length {A} (l : list A) i j :
  length (slice l i j) = Nat.min (j - i) (length l - i).
Proof. unfold slice. now rewrite length_firstn, length_skipn. Qed.

(** The batches cut from position [i] on. *)
Lemma batches_from_concat (merged : list string) fuel :
  forall i,
    length merged - i <= fuel ->
    concat (map (fun i => slice merged i (i + BATCH))
                (range_from fuel i (length merged) BATCH)) =
    skipn i merged.
Proof.
  induction fuel as [|fuel IH]; intros i H; cbn [range_from].
  - rewrite skipn_all2 by lia. reflexivity.
  - destruct (Nat.ltb_spec i (length merged)) as [Hi|Hi].
    + cbn [map concat]. rewrite IH by (unfold BATCH; lia).
      unfold slice. replace (i + BATCH - i) with BATCH by lia.
      rewrite Nat.add_comm, <- skipn_skipn. apply firstn_skipn.
    + rewrite skipn_all2 by lia. reflexivity.
Qed.

Lemma batches_from_length (merged : list string) fuel :
  forall i,
    length merged - i <= fuel ->
    length (map (fun i => slice merged i (i + BATCH))
                (range_from fuel i (length merged) BATCH)) =
    ceil_div (length merged - i) BATCH.
Proof.
  unfold ceil_div.
  induction fuel as [|fuel IH]; intros i H; cbn [range_from].
  - replace (length merged - i) with 0 by lia. reflexivity.
  - destruct (Nat.ltb_spec i (length merged)) as [Hi|Hi].
    + cbn [map length]. rewrite IH by (unfold BATCH; lia).
      unfold BATCH.
      destruct (Nat.eqb_spec ((length merged - (i + 100)) mod 100) 0);
        destruct (Nat.eqb_spec ((length merged - i) mod 100) 0); lia.
    + replace (length merged - i) with 0 by lia. reflexivity.
Qed.

Lemma batches_from_sizes (merged : list string) fuel :
  forall i,
    Forall (fun b => 1 <= length b <= BATCH)
           (map (fun i => slice merged i (i + BATCH))
                (range_from fuel i (length merged) BATCH)).
Proof.
  induction fuel as [|fuel IH]; intros i; cbn [range_from].
  - constructor.
  - destruct (Nat.ltb_spec i (length merged)) as [Hi|Hi]; [|constructor].
    cbn [map]. constructor; [|apply IH].
    rewrite slice_length. unfold BATCH. lia.
Qed.

Lemma batches_from_last (merged : list string) fuel :
  forall i,
    length merged - i <= fuel ->
    i < length merged ->
    length (last (map (fun i => slice merged i (i + BATCH))
                      (range_from fuel i (length merged) BATCH)) []) =
    if (length merged - i) mod BATCH =? 0 then BATCH
    else (length merged - i) mod BATCH.
Proof.
  induction fuel as [|fuel IH]; intros i H Hi; cbn [range_from].
  - lia.
  - destruct (Nat.ltb_spec i (length merged)) as [_|]; [|lia].
    cbn [map].
    destruct (Nat.ltb_spec (i + BATCH) (length merged)) as [Hn|Hn].
    + specialize (IH (i + BATCH)).
      destruct fuel as [|fuel']; [unfold BATCH in *; lia|].
      cbn [range_from] in IH |- *.
      destruct (Nat.ltb_spec (i + BATCH) (length merged)) as [_|]; [|lia].
      cbn [map last] in IH |- *.
      rewrite IH by (unfold BATCH in *; lia).
      unfold BATCH in *.
      destruct (Nat.eqb_spec ((length merged - (i + 100)) mod 100) 0);
        destruct (Nat.eqb_spec ((length merged - i) mod 100) 0); lia.
    + destruct fuel as [|fuel']; cbn [range_from map last].
      * rewrite slice_length. unfold BATCH in *.
        destruct (Nat.eqb_spec ((length merged - i) mod 100) 0); lia.
      * destruct (Nat.ltb_spec (i + BATCH) (length merged)) as [|_]; [lia|].
        cbn [map last]. rewrite slice_length. unfold BATCH in *.
        destruct (Nat.eqb_spec ((length merged - i) mod 100) 0); lia.
Qed.

End Batches.

Section BatchLaws.

Lemma batches_concat merged : concat (batches merged) = merged.
Proof.
  unfold batches, py_range. rewrite batches_from_concat by lia. reflexivity.
Qed.

Lemma batches_length merged :
  length (batches merged) = ceil_div (length merged) BATCH.
Proof.
  unfold batches, py_range. rewrite batches_from_length by lia.
  now rewrite Nat.sub_0_r.
Qed.

Lemma batches_sizes merged :
  Forall (fun b => 1 <= length b <= BATCH) (batches merged).
Proof. apply batches_from_sizes. Qed.

Lemma batches_last merged :
  0 < length merged ->
  length (last (batches merged) []) =
  if length merged mod BATCH =? 0 then BATCH else length merged mod BATCH.
Proof.
  intro H. unfold batches, py_range. rewrite batches_from_last by lia.
  now rewrite Nat.sub_0_r.
Qed.

End BatchLaws.

(** ** Titles *)

Section TitleLines.

Lemma artist_update (a : option string) t :
  match artists_or_empty t with
  | [] => a
  | x :: _ => Some (a_name x)
  end = match primary t with
        | Some x => Some x
        | None => a
        end.
Proof. unfold primary. destruct (artists_or_empty t); reflexivity. Qed.

Lemma carry_cons a t ts :
  carry a (t :: ts) =
  carry (match primary t with Some x => Some x | None => a end) ts.
Proof. reflexivity. Qed.

Lemma carry_some x ts : exists y, carry (Some x) ts = Some y.
Proof.
  revert x; induction ts as [|t ts IH]; intro x.
  - now exists x.
  - rewrite carry_cons. destruct (primary t); apply IH.
Qed.

Lemma last_primary_snoc ts t :
  last_primary (ts ++ [t]) =
  match primary t with
  | Some x => Some x
  | None => last_primary ts
  end.
Proof.
  unfold last_primary. rewrite rev_app_distr. simpl.
  destruct (primary t) eqn:E; [exact E | reflexivity].
Qed.

(** With nothing carried in, the variable holds the primary artist of the
    most recent track that has one. *)
Lemma carry_last_primary ts : carry None ts = last_primary ts.
Proof.
  induction ts as [|t ts IH] using rev_ind.
  - reflexivity.
  - unfold carry in *. rewrite fold_left_app, last_primary_snoc. simpl.
    rewrite IH. reflexivity.
Qed.

Lemma ready_app_l a ts1 ts2 : ready a (ts1 ++ ts2) -> ready a ts1.
Proof.
  intros [H|H]; [now left|]. right. intros t E. apply H.
  destruct ts1; [discriminate | exact E].
Qed.

Lemma ready_app_r a ts1 ts2 :
  ready a (ts1 ++ ts2) -> ready (carry a ts1) ts2.
Proof.
  destruct ts1 as [|t ts1]; [exact (fun H => H)|].
  intros H. left. rewrite carry_cons.
  destruct (primary t) as [x|] eqn:E.
  - destruct (carry_some x ts1) as [y ->]. discriminate.
  - destruct a as [x|].
    + destruct (carry_some x ts1) as [y ->]. discriminate.
    + destruct H as [H|H]; [congruence|].
      exfalso. apply (H t); [reflexivity | exact E].
Qed.

Lemma lines_from_app ts1 :
  forall a ts2,
    ready a ts1 ->
    lines_from a (ts1 ++ ts2) =
    lines_from a ts1 ++ lines_from (carry a ts1) ts2.
Proof.
  induction ts1 as [|t ts1 IH]; intros a ts2 R.
  - reflexivity.
  - rewrite carry_cons. cbn [app lines_from].
    destruct (primary t) as [x|] eqn:E.
    + rewrite IH by (left; discriminate). reflexivity.
    + destruct a as [x|].
      * rewrite IH by (left; discriminate). reflexivity.
      * destruct R as [R|R]; [congruence|].
        exfalso. apply (R t); [reflexivity | exact E].
Qed.

Lemma lines_from_length ts :
  forall a, ready a ts -> length (lines_from a ts) = length ts.
Proof.
  induction ts as [|t ts IH]; intros a R; cbn [lines_from length].
  - reflexivity.
  - destruct (primary t) as [x|] eqn:E.
    + cbn [length]. rewrite IH by (left; discriminate). reflexivity.
    + destruct a as [x|].
      * cbn [length]. rewrite IH by (left; discriminate). reflexivity.
      * destruct R as [R|R]; [congruence|].
        exfalso. apply (R t); [reflexivity | exact E].
Qed.

Lemma lines_from_nth ts :
  forall a i t,
    ready a ts ->
    nth_error ts i = Some t ->
    exists x,
      carry a (firstn (S i) ts) = Some x /\
      nth_error (lines_from a ts) i = Some (track_name t ++ " - " ++ x)%string.
Proof.
  induction ts as [|t0 ts IH]; intros a i t R Hi.
  - destruct i; discriminate.
  - assert (exists x, match primary t0 with Some x => Some x | None => a end
                      = Some x) as [x Hx].
    { destruct (primary t0) as [x|] eqn:E; [now exists x|].
      destruct a as [x|]; [now exists x|].
      destruct R as [R|R]; [congruence|].
      exfalso. apply (R t0); [reflexivity | exact E]. }
    assert (L : lines_from a (t0 :: ts) =
                (track_name t0 ++ " - " ++ x)%string :: lines_from (Some x) ts).
    { cbn [lines_from]. destruct (primary t0); [|destruct a]; congruence. }
    rewrite L. cbn [firstn]. rewrite carry_cons, Hx.
    destruct i as [|i].
    + injection Hi as <-. exists x. split; reflexivity.
    + cbn [nth_error] in Hi |- *.
      apply IH; [left; discriminate | exact Hi].
Qed.

Lemma prints_of_app evs1 evs2 :
  prints_of (evs1 ++ evs2) = prints_of evs1 ++ prints_of evs2.
Proof.
  induction evs1 as [|[c|l|e] evs1 IH]; simpl; congruence.
Qed.

Lemma no_raise_app evs1 evs2 :
  no_raise (evs1 ++ evs2) = no_raise evs1 && no_raise evs2.
Proof. apply forallb_app. Qed.

Lemma items_script_ready items :
  forall a,
    ready a (item_tracks items) ->
    snd (items_script items a) = carry a (item_tracks items) /\
    prints_of (fst (items_script items a)) = lines_from a (item_tracks items)
    /\ no_raise (fst (items_script items a)) = true.
Proof.
  induction items as [|item rest IH]; intros a R;
    cbn [items_script item_tracks] in *.
  - repeat split.
  - destruct (item_track item) as [t|]; [|now apply IH].
    rewrite artist_update, carry_cons. cbn [lines_from].
    destruct (primary t) as [x|] eqn:E.
    + destruct (IH (Some x)) as (C & P & N); [left; discriminate|].
      destruct (items_script rest (Some x)) as [evs r]. cbn [fst snd] in *.
      repeat split; simpl; congruence.
    + destruct a as [x|].
      * destruct (IH (Some x)) as (C & P & N); [left; discriminate|].
        destruct (items_script rest (Some x)) as [evs r]. cbn [fst snd] in *.
        repeat split; simpl; congruence.
      * destruct R as [R|R]; [congruence|].
        exfalso. apply (R t); [reflexivity | exact E].
Qed.

Lemma all_tracks_page items next :
  all_tracks (Page items next) =
  item_tracks items ++ match next with
                       | Some q => all_tracks q
                       | None => []
                       end.
Proof. unfold all_tracks. destruct next; reflexivity. Qed.

Lemma titles_script_ready p :
  forall a,
    ready a (all_tracks p) ->
    prints_of (titles_script p a) = lines_from a (all_tracks p) /\
    no_raise (titles_script p a) = true.
Proof.
  induction p as [items|items q IH] using page_chain_ind; intros a R;
    rewrite all_tracks_page in *; cbn [titles_script];
    destruct (items_script_ready items a (ready_app_l _ _ _ R)) as (C & P & N);
    destruct (items_script items a) as [evs a']; cbn [fst snd] in *; subst a'.
  - rewrite !app_nil_r. split; assumption.
  - destruct (IH _ (ready_app_r _ _ _ R)) as (P' & N').
    rewrite prints_of_app, no_raise_app, lines_from_app
      by (eapply ready_app_l; eassumption).
    cbn [prints_of no_raise forallb]. fold (no_raise (titles_script q (carry a (item_tracks items)))).
    rewrite P, P', N, N'. split; reflexivity.
Qed.

Lemma items_script_empty items :
  forall a, item_tracks items = [] -> items_script items a = ([], a).
Proof.
  induction items as [|item rest IH]; intros a H; cbn [items_script].
  - reflexivity.
  - cbn [item_tracks] in H. destruct (item_track item); [discriminate|].
    now apply IH.
Qed.

Lemma items_script_unbound items :
  forall t ts,
    item_tracks items = t :: ts ->
    primary t = None ->
    items_script items None =
    ([Raise (UnboundLocalError "artist_name")], None).
Proof.
  induction items as [|item rest IH]; intros t ts H E; cbn [items_script].
  - discriminate.
  - cbn [item_tracks] in H. destruct (item_track item) as [t'|].
    + injection H as -> _. rewrite artist_update, E. reflexivity.
    + eapply IH; eassumption.
Qed.

(** When the first attached track lists no artist, the script is a run of
    page fetches ended by the unbound read. *)
Lemma titles_script_unbound p :
  forall t ts,
    all_tracks p = t :: ts ->
    primary t = None ->
    exists cs rest,
      titles_script p None =
      map Call cs ++ Raise (UnboundLocalError "artist_name") :: rest /\
      forallb readonly cs = true.
Proof.
  induction p as [items|items q IH] using page_chain_ind; intros t ts H E;
    rewrite all_tracks_page in H; cbn [titles_script].
  - rewrite app_nil_r in H. rewrite (items_script_unbound items t ts H E).
    exists [], []. split; reflexivity.
  - destruct (item_tracks items) as [|t' ts'] eqn:I.
    + rewrite (items_script_empty items None I).
      destruct (IH t ts H E) as (cs & rest & S & Ro).
      exists (Next q :: cs), rest. rewrite S. split; [reflexivity|].
      simpl. exact Ro.
    + injection H as -> _.
      rewrite (items_script_unbound items t ts' I E).
      exists [], (Call (Next q) :: titles_script q None).
      split; reflexivity.
Qed.

End TitleLines.

(** ** Faults *)

Section Faults.

Variable sp : service.

(** A run stops at the first call that raises, with that call's error. *)
Lemma replay_fail_fast evs :
  forall w r w',
    replay sp evs w = (r, w') ->
    exists ext,
      calls w' = calls w ++ ext /\
      forall pre c post e,
        ext = pre ++ c :: post ->
        fault sp (calls w ++ pre) c = Some e ->
        r = Some (SpotifyException e) /\ post = [].
Proof.
  induction evs as [|[c|l|x] evs IH]; intros w r w' H; cbn [replay] in H.
  - injection H as <- <-. exists []. split; [now rewrite app_nil_r|].
    intros pre c post e E. now destruct pre.
  - destruct (fault sp (calls w) c) as [msg|] eqn:F.
    + injection H as <- <-. exists [c]. split; [reflexivity|].
      intros [|x pre] c' post e E Fe.
      * injection E as <- <-. rewrite app_nil_r in Fe. split; congruence.
      * injection E as _ E. now destruct pre.
    + destruct (IH _ _ _ H) as (ext & C & P).
      rewrite calls_effect, calls_log, <- app_assoc in C.
      exists (c :: ext). split; [exact C|].
      intros [|x pre] c' post e E Fe.
      * injection E as <- _. rewrite app_nil_r in Fe. congruence.
      * injection E as <- E. apply (P pre c' post e E).
        rewrite calls_effect, calls_log, <- app_assoc. exact Fe.
  - destruct (IH _ _ _ H) as (ext & C & P). exists ext. split; assumption.
  - injection H as <- <-. exists []. split; [now rewrite app_nil_r|].
    intros pre c post e E. now destruct pre.
Qed.

(** The calls of a run are an initial part of its script, all of it when
    the run completes. *)
Lemma replay_prefix evs :
  forall w r w',
    replay sp evs w = (r, w') ->
    exists n,
      calls w' = calls w ++ firstn n (calls_of evs) /\
      (r = None -> calls w' = calls w ++ calls_of evs).
Proof.
  induction evs as [|[c|l|x] evs IH]; intros w r w' H; cbn [replay] in H.
  - injection H as <- <-. exists 0. simpl. now rewrite app_nil_r.
  - destruct (fault sp (calls w) c) as [msg|] eqn:F.
    + injection H as <- <-. exists 1. split; [reflexivity | discriminate].
    + destruct (IH _ _ _ H) as (n & C & P).
      rewrite calls_effect, calls_log, <- app_assoc in C, P.
      exists (S n). split; [exact C | exact P].
  - destruct (IH _ _ _ H) as (n & C & P). exists n. split; assumption.
  - injection H as <- <-. exists 0. simpl. split; [|discriminate].
    now rewrite app_nil_r.
Qed.

Lemma calls_of_calls cs : calls_of (map Call cs) = cs.
Proof. induction cs; simpl; congruence. Qed.

Lemma calls_of_app evs1 evs2 :
  calls_of (evs1 ++ evs2) = calls_of evs1 ++ calls_of evs2.
Proof. induction evs1 as [|[c|l|e] evs1 IH]; simpl; congruence. Qed.

(** A script without [Raise] whose calls do not raise runs to its end. *)
Lemma replay_smooth evs :
  forall w,
    quiet sp (calls w) (calls_of evs) ->
    no_raise evs = true ->
    exists w',
      replay sp evs w = (None, w') /\
      calls w' = calls w ++ calls_of evs /\
      stdout w' = stdout w ++ prints_of evs.
Proof.
  induction evs as [|[c|l|x] evs IH]; intros w Q N;
    cbn [replay calls_of prints_of].
  - exists w. now rewrite !app_nil_r.
  - cbn [calls_of] in Q. apply quiet_cons in Q as [F Q]. rewrite F.
    destruct (IH (effect sp c (log c w))) as (w' & R & C & O).
    + now rewrite calls_effect, calls_log.
    + exact N.
    + exists w'. rewrite R, C, O, calls_effect, stdout_effect, calls_log.
      rewrite <- app_assoc. repeat split.
  - destruct (IH (emit l w)) as (w' & R & C & O); [exact Q | exact N |].
    exists w'. rewrite R, C, O. simpl. rewrite <- app_assoc. repeat split.
  - discriminate.
Qed.

Lemma world_eq w1 w2 :
  calls w1 = calls w2 -> stdout w1 = stdout w2 -> library w1 = library w2 ->
  w1 = w2.
Proof. destruct w1, w2; simpl; congruence. Qed.

Lemma perform_readonly cs w :
  forallb readonly cs = true ->
  perform sp cs w =
  {| calls := calls w ++ cs; stdout := stdout w; library := library w |}.
Proof.
  intro H. apply world_eq; simpl.
  - apply calls_perform.
  - apply stdout_perform.
  - now apply library_perform_readonly.
Qed.

Lemma library_adds id bs :
  forall w e lib,
    library w = e :: lib ->
    st_id e = id ->
    library (perform sp (add_calls id bs) w) =
    {| st_id := id; st_owner := st_owner e; st_name := st_name e;
       st_public := st_public e; st_tracks := st_tracks e ++ concat bs |}
    :: lib.
Proof.
  induction bs as [|b bs IH]; intros w e lib L I.
  - simpl. rewrite L, app_nil_r. destruct e; simpl in *. now subst.
  - cbn [add_calls map]. rewrite perform_cons.
    rewrite (IH _ {| st_id := st_id e; st_owner := st_owner e;
                     st_name := st_name e; st_public := st_public e;
                     st_tracks := st_tracks e ++ b |} lib).
    + cbn [st_owner st_name st_public st_tracks concat].
      rewrite <- app_assoc. reflexivity.
    + cbn [effect log library]. rewrite L. cbn [add_tracks].
      rewrite I, String.eqb_refl. reflexivity.
    + exact I.
Qed.

Lemma items_added_adds id bs :
  items_added (add_calls id bs) = map (pair id) bs.
Proof. induction bs; simpl; congruence. Qed.

Lemma items_added_app cs1 cs2 :
  items_added (cs1 ++ cs2) = items_added cs1 ++ items_added cs2.
Proof.
  induction cs1 as [|c cs1 IH]; [reflexivity|].
  destruct c; simpl; congruence.
Qed.

Lemma creations_app cs1 cs2 :
  creations (cs1 ++ cs2) = creations cs1 ++ creations cs2.
Proof.
  induction cs1 as [|c cs1 IH]; [reflexivity|].
  destruct c; simpl; congruence.
Qed.

Lemma creations_readonly cs : forallb readonly cs = true -> creations cs = [].
Proof.
  induction cs as [|c cs IH]; [reflexivity|]. simpl.
  intro H. apply andb_prop in H as [Hc H]. destruct c; try discriminate; auto.
Qed.

Lemma items_added_readonly cs :
  forallb readonly cs = true -> items_added cs = [].
Proof.
  induction cs as [|c cs IH]; [reflexivity|]. simpl.
  intro H. apply andb_prop in H as [Hc H]. destruct c; try discriminate; auto.
Qed.

Lemma creations_adds id bs : creations (add_calls id bs) = [].
Proof. induction bs; simpl; auto. Qed.

Lemma creations_firstn cs :
  forall n, exists m, creations (firstn n cs) = firstn m (creations cs).
Proof.
  induction cs as [|c cs IH]; intros [|n]; try (exists 0; reflexivity).
  destruct (IH n) as [m E]. cbn [firstn].
  destruct c; cbn [creations]; try (exists m; exact E).
  exists (S m). cbn [firstn]. now rewrite E.
Qed.

End Faults.

(** ** Runs of merge_playlists *)

Section MergeRuns.

Variable sp : service.
Variables src1 src2 new_name : string.
Variable lim : Z.

Lemma firstn_snoc {A} (d : A) (l : list A) :
  forall k, k < length l -> firstn (S k) l = firstn k l ++ [nth k l d].
Proof.
  induction l as [|x l IH]; intros k H; simpl in H; [lia|].
  destruct k as [|k]; [reflexivity|].
  cbn [firstn nth app]. f_equal. apply IH. lia.
Qed.

Lemma split_at {A} (d : A) (l : list A) k :
  k < length l -> l = firstn k l ++ nth k l d :: skipn (S k) l.
Proof.
  intro H. rewrite <- (skipn_nth d l k H). symmetry. apply firstn_skipn.
Qed.

Lemma add_calls_app id bs1 bs2 :
  add_calls id (bs1 ++ bs2) = add_calls id bs1 ++ add_calls id bs2.
Proof. apply map_app. Qed.

Lemma merge_prelude_split :
  merge_prelude sp src1 src2 new_name lim =
  (CurrentUser :: fetch_calls sp src1 URI_FIELDS (Some lim)
   ++ fetch_calls sp src2 URI_FIELDS (Some lim))
  ++ [UserPlaylistCreate (me sp) new_name false].
Proof.
  unfold merge_prelude. cbn [app]. now rewrite app_assoc.
Qed.

Lemma readonly_merge_reads :
  forallb readonly
    (CurrentUser :: fetch_calls sp src1 URI_FIELDS (Some lim)
     ++ fetch_calls sp src2 URI_FIELDS (Some lim)) = true.
Proof.
  cbn [forallb readonly andb].
  now rewrite forallb_app, !readonly_fetch_calls.
Qed.

Lemma creations_merge_prelude :
  creations (merge_prelude sp src1 src2 new_name lim) =
  [(me sp, new_name, false)].
Proof.
  rewrite merge_prelude_split, creations_app.
  now rewrite (creations_readonly _ readonly_merge_reads).
Qed.

Lemma items_added_merge_prelude :
  items_added (merge_prelude sp src1 src2 new_name lim) = [].
Proof.
  rewrite merge_prelude_split, items_added_app.
  now rewrite (items_added_readonly _ readonly_merge_reads).
Qed.

(** The world once the playlist is created and the batches [bs] written. *)
Lemma merge_world bs w :
  perform sp (merge_prelude sp src1 src2 new_name lim
              ++ add_calls (new_playlist_id sp (length (library w))) bs) w =
  {| calls := calls w ++ merge_prelude sp src1 src2 new_name lim
              ++ add_calls (new_playlist_id sp (length (library w))) bs;
     stdout := stdout w;
     library := {| st_id := new_playlist_id sp (length (library w));
                   st_owner := me sp; st_name := new_name;
                   st_public := false; st_tracks := concat bs |}
                :: library w |}.
Proof.
  apply world_eq; cbn [calls stdout library].
  - apply calls_perform.
  - apply stdout_perform.
  - rewrite perform_app.
    rewrite (library_adds sp _ bs _
               {| st_id := new_playlist_id sp (length (library w));
                  st_owner := me sp; st_name := new_name;
                  st_public := false; st_tracks := [] |} (library w)).
    + reflexivity.
    + rewrite merge_prelude_split, perform_app.
      rewrite (perform_readonly sp _ w readonly_merge_reads).
      reflexivity.
    + reflexivity.
Qed.

Lemma merge_script_calls w :
  merge_script sp src1 src2 new_name lim w =
  map Call (merge_prelude sp src1 src2 new_name lim
            ++ add_calls (new_playlist_id sp (length (library w)))
                 (batches (merged_of sp src1 src2 lim)))
  ++ [Print (summary new_name (merged_of sp src1 src2 lim))].
Proof. reflexivity. Qed.

(** A run in which no call raises. *)
Lemma merge_playlists_quiet w :
  quiet sp (calls w)
    (merge_prelude sp src1 src2 new_name lim
     ++ add_calls (new_playlist_id sp (length (library w)))
          (batches (merged_of sp src1 src2 lim))) ->
  merge_playlists sp src1 src2 new_name lim w =
  (Ok tt,
   {| calls := calls w ++ merge_prelude sp src1 src2 new_name lim
               ++ add_calls (new_playlist_id sp (length (library w)))
                    (batches (merged_of sp src1 src2 lim));
      stdout := stdout w ++ [summary new_name (merged_of sp src1 src2 lim)];
      library := {| st_id := new_playlist_id sp (length (library w));
                    st_owner := me sp; st_name := new_name;
                    st_public := false;
                    st_tracks := merged_of sp src1 src2 lim |}
                 :: library w |}).
Proof.
  intro Q.
  rewrite merge_playlists_replay, merge_script_calls, replay_app.
  rewrite (replay_quiet sp _ w Q), merge_world, batches_concat.
  reflexivity.
Qed.

(** A run that completes went through the whole script. *)
Lemma merge_playlists_ok_inv w w' :
  merge_playlists sp src1 src2 new_name lim w = (Ok tt, w') ->
  w' =
  {| calls := calls w ++ merge_prelude sp src1 src2 new_name lim
              ++ add_calls (new_playlist_id sp (length (library w)))
                   (batches (merged_of sp src1 src2 lim));
     stdout := stdout w ++ [summary new_name (merged_of sp src1 src2 lim)];
     library := {| st_id := new_playlist_id sp (length (library w));
                   st_owner := me sp; st_name := new_name;
                   st_public := false;
                   st_tracks := merged_of sp src1 src2 lim |}
                :: library w |}.
Proof.
  rewrite merge_playlists_replay, merge_script_calls, replay_app.
  destruct (replay sp (map Call _) w) as [[e|] w1] eqn:R.
  - discriminate.
  - apply replay_calls_inv in R. subst w1.
    rewrite merge_world, batches_concat. cbn [replay finish emit].
    intro H. injection H as <-. reflexivity.
Qed.

(** A run whose [k]-th batch write is the first call to raise. *)
Lemma merge_playlists_partial w k e :
  let id := new_playlist_id sp (length (library w)) in
  let bs := batches (merged_of sp src1 src2 lim) in
  let done := merge_prelude sp src1 src2 new_name lim
              ++ add_calls id (firstn k bs) in
  k < length bs ->
  quiet sp (calls w) done ->
  fault sp (calls w ++ done) (PlaylistAddItems id (nth k bs [])) = Some e ->
  merge_playlists sp src1 src2 new_name lim w =
  (Err (SpotifyException e),
   {| calls := calls w ++ done ++ [PlaylistAddItems id (nth k bs [])];
      stdout := stdout w;
      library := {| st_id := id; st_owner := me sp; st_name := new_name;
                    st_public := false; st_tracks := concat (firstn k bs) |}
                 :: library w |}).
Proof.
  intros id bs done Hk Q F. subst done id.
  set (id := new_playlist_id sp (length (library w))) in *.
  assert (E : add_calls id bs =
              add_calls id (firstn k bs)
              ++ PlaylistAddItems id (nth k bs [])
                 :: add_calls id (skipn (S k) bs)).
  { transitivity (add_calls id (firstn k bs ++ nth k bs [] :: skipn (S k) bs)).
    - f_equal. now apply split_at.
    - apply add_calls_app. }
  rewrite merge_playlists_replay, merge_script_calls.
  fold bs id. rewrite E, app_assoc, map_app, <- app_assoc, replay_app.
  rewrite (replay_quiet sp _ w Q). subst id. rewrite merge_world.
  cbn [map app replay calls]. rewrite F.
  unfold log. cbn [finish calls stdout library].
  rewrite <- !app_assoc. reflexivity.
Qed.

End MergeRuns.

(** ** Dates *)

Section Dates.

Lemma parse_str_of_nat n : parse_nat (str_of_nat n) = Some n.
Proof.
  unfold parse_nat, str_of_nat. rewrite NilEmpty.usu. simpl.
  now rewrite Unsigned.of_to.
Qed.

Lemma year_four_digits y :
  1000 <= y <= MAXYEAR -> String.length (str_of_nat y) = 4.
Proof.
  unfold MAXYEAR. intro H.
  assert (C : forallb (fun y => String.length (str_of_nat y) =? 4)
                      (seq 1000 (9 * 1000)) = true)
    by (vm_compute; reflexivity).
  rewrite forallb_forall in C. apply Nat.eqb_eq, C, in_seq. lia.
Qed.

Lemma two_digits_spec n :
  n < 100 ->
  String.length (two_digits n) = 2 /\ parse_nat (two_digits n) = Some n.
Proof.
  intro H.
  assert (C : forallb (fun n => (String.length (two_digits n) =? 2)
                                && match parse_nat (two_digits n) with
                                   | Some m => m =? n
                                   | None => false
                                   end)
                      (seq 0 100) = true) by (vm_compute; reflexivity).
  rewrite forallb_forall in C. specialize (C n). rewrite in_seq in C.
  assert (C' := C ltac:(lia)). apply andb_prop in C' as [L P].
  apply Nat.eqb_eq in L.
  destruct (parse_nat (two_digits n)); [|discriminate].
  apply Nat.eqb_eq in P. now subst.
Qed.

Lemma strftime_iso now :
  1000 <= year now <= MAXYEAR ->
  month now < 100 ->
  day now < 100 ->
  iso_date (strftime_Ymd now) (year now) (month now) (day now).
Proof.
  intros Hy Hm Hd.
  destruct (two_digits_spec _ Hm) as [Lm Pm].
  destruct (two_digits_spec _ Hd) as [Ld Pd].
  exists (str_of_nat (year now)), (two_digits (month now)),
         (two_digits (day now)).
  repeat split; auto using year_four_digits, parse_str_of_nat.
Qed.

End Dates.

(** * The claims *)

Section Positions.

Lemma interleave_nth {A} (a : list A) :
  forall b i,
    i < length a -> i < length b ->
    nth_error (interleave a b) (2 * i) = nth_error a i /\
    nth_error (interleave a b) (2 * i + 1) = nth_error b i.
Proof.
  induction a as [|x a IH]; intros [|y b] i Ha Hb; simpl in Ha, Hb; try lia.
  destruct i as [|i].
  - split; reflexivity.
  - replace (2 * S i) with (S (S (2 * i))) by lia.
    replace (S (S (2 * i)) + 1) with (S (S (2 * i + 1))) by lia.
    cbn [interleave nth_error]. apply IH; lia.
Qed.

Lemma interleave_tail {A} (a : list A) :
  forall b,
    skipn (2 * Nat.min (length a) (length b)) (interleave a b) =
    skipn (Nat.min (length a) (length b)) a
    ++ skipn (Nat.min (length a) (length b)) b.
Proof.
  induction a as [|x a IH]; intros [|y b]; cbn [length Nat.min].
  - reflexivity.
  - reflexivity.
  - simpl. now rewrite app_nil_r.
  - replace (2 * S (Nat.min (length a) (length b)))
      with (S (S (2 * Nat.min (length a) (length b)))) by lia.
    cbn [interleave skipn]. apply IH.
Qed.

Lemma quietb_sound sp cs :
  forall h, quietb sp h cs = true -> quiet sp h cs.
Proof.
  induction cs as [|c cs IH]; intros h H pre c' post E.
  - now destruct pre.
  - cbn [quietb] in H. destruct (fault sp h c) eqn:F; [discriminate|].
    destruct pre as [|x pre]; injection E as <- E.
    + now rewrite app_nil_r.
    + specialize (IH (h ++ [c]) H pre c' post E).
      rewrite <- app_assoc in IH. exact IH.
Qed.

End Positions.

(** C1.  [merge_playlists] merges the two fetched sequences by positional
    interleaving in forward order: element [i] of the first, then element
    [i] of the second, for every position both have, followed by the
    leftover tail of the longer one; [[a0;a1;a2]] and [[b0;b1]] give
    [[a0;b0;a1;b1;a2]]. *)
Theorem merge_tracks_interleaves (A B : list string) :
  merge_tracks A B = interleave A B /\
  (forall i, i < length A -> i < length B ->
     nth_error (merge_tracks A B) (2 * i) = nth_error A i /\
     nth_error (merge_tracks A B) (2 * i + 1) = nth_error B i) /\
  skipn (2 * Nat.min (length A) (length B)) (merge_tracks A B) =
    skipn (Nat.min (length A) (length B)) A
    ++ skipn (Nat.min (length A) (length B)) B /\
  (forall a0 a1 a2 b0 b1 : string,
     merge_tracks [a0; a1; a2] [b0; b1] = [a0; b0; a1; b1; a2]) /\
  (forall sp src1 src2 lim,
     merged_of sp src1 src2 lim =
     interleave (fetched sp src1 (Some lim)) (fetched sp src2 (Some lim))).
Proof.
  rewrite merge_tracks_interleave.
  split; [reflexivity|].
  split; [apply interleave_nth|].
  split; [apply interleave_tail|].
  split; [reflexivity|].
  intros. apply merge_tracks_interleave.
Qed.

Lemma merge_tracks_interleaves_witness :
  nth_error (merge_tracks ["a0"; "a1"; "a2"] ["b0"; "b1"]) (2 * 1) = Some "a1" /\
  nth_error (merge_tracks ["a0"; "a1"; "a2"] ["b0"; "b1"]) (2 * 1 + 1)
  = Some "b1".
Proof.
  destruct (merge_tracks_interleaves ["a0"; "a1"; "a2"] ["b0"; "b1"])
    as (_ & H & _).
  apply (H 1); simpl; lia.
Defined.

(** C9.  The merged sequence has exactly as many elements as the two
    fetched sequences together. *)
Theorem merge_tracks_length (A B : list string) :
  length (merge_tracks A B) = length A + length B.
Proof. rewrite merge_tracks_interleave. apply interleave_length. Qed.

Lemma reliable_never : reliable (sample never).
Proof. intros h c. reflexivity. Qed.

(** C2.  On a service that does not raise, [get_all_track_uris] with limit
    [L] returns the first [L] URIs of the attached tracks of the playlist,
    in page order and without the slots that have no track: [min N L] of
    them when [N] tracks are attached (none for a negative [L]); with no
    limit it returns all [N].  Under a limit it follows cursors only while
    the tracks seen so far are fewer than [L], so it stops on the page where
    the limit is reached; with no limit it follows every cursor up to the
    page that has none. *)
Theorem get_all_track_uris_collects (sp : service) (id : string) (w : world) :
  reliable sp ->
  let p := first_page sp id in
  let N := length (all_uris p) in
  (forall L : Z,
     exists k,
       get_all_track_uris sp id (Some L) w =
       (Ok (firstn (Z.to_nat L) (all_uris p)),
        {| calls := calls w ++ PlaylistTracks id URI_FIELDS
                               :: map Next (firstn k (tl (pages_of p)));
           stdout := stdout w; library := library w |}) /\
       length (firstn (Z.to_nat L) (all_uris p)) = Nat.min N (Z.to_nat L) /\
       ((0 <= L)%Z ->
        Z.of_nat (length (firstn (Z.to_nat L) (all_uris p)))
        = Z.min (Z.of_nat N) L) /\
       k <= length (tl (pages_of p)) /\
       (k = length (tl (pages_of p)) \/
        (L <= Z.of_nat (tracks_upto (S k) p))%Z) /\
       (forall j, j < k -> (Z.of_nat (tracks_upto (S j) p) < L)%Z)) /\
  get_all_track_uris sp id None w =
  (Ok (all_uris p),
   {| calls := calls w ++ PlaylistTracks id URI_FIELDS
                          :: map Next (tl (pages_of p));
      stdout := stdout w; library := library w |}).
Proof.
  intros R p N. split.
  - intro L.
    destruct (walk_some_pages L p []) as (k & E & B & St & Nx).
    exists k. split; [|split; [|split; [|split; [|split]]]].
    + rewrite get_all_track_uris_replay.
      rewrite (replay_quiet sp _ w (reliable_quiet sp _ _ R)).
      rewrite (perform_readonly sp _ w (readonly_fetch_calls sp _ _ _)).
      unfold fetched, fetch_calls, followed. fold p.
      rewrite walk_some_uris, E. cbn [length app finish].
      now rewrite Nat.sub_0_r.
    + rewrite length_firstn. fold N. lia.
    + intro H. rewrite length_firstn. fold N. lia.
    + exact B.
    + exact St.
    + exact Nx.
  - rewrite get_all_track_uris_replay.
    rewrite (replay_quiet sp _ w (reliable_quiet sp _ _ R)).
    rewrite (perform_readonly sp _ w (readonly_fetch_calls sp _ _ _)).
    unfold fetched, fetch_calls, followed. fold p.
    rewrite walk_none. reflexivity.
Qed.

Lemma get_all_track_uris_collects_witness :
  fst (get_all_track_uris (sample never) "A" (Some 2%Z) fresh)
  = Ok ["a0"; "a1"] /\
  calls (snd (get_all_track_uris (sample never) "A" (Some 2%Z) fresh))
  = [PlaylistTracks "A" URI_FIELDS] /\
  fst (get_all_track_uris (sample never) "A" None fresh)
  = Ok ["a0"; "a1"; "a2"].
Proof.
  destruct (get_all_track_uris_collects (sample never) "A" fresh
              reliable_never) as [H1 H2].
  destruct (H1 2%Z) as (k & E & _ & _ & _ & _ & Nx).
  assert (K : k = 0).
  { destruct k as [|k]; [reflexivity|].
    specialize (Nx 0 ltac:(lia)). vm_compute in Nx. discriminate. }
  subst k. rewrite E, H2. repeat split.
Defined.

(** C3.  A merged sequence of [M] URIs is cut into [ceil(M/100)] batches of
    at least one and at most 100 URIs, the last of [M mod 100] URIs (100
    when [M] is a positive multiple of 100), whose concatenation is the
    sequence itself, [M] URIs in all; on a service that does not raise,
    the [add_items] calls of [merge_playlists] are exactly these batches,
    in order, all on the new playlist, which ends up holding the merged
    sequence. *)
Theorem merge_playlists_batches (sp : service) (src1 src2 new_name : string)
    (lim : Z) (w : world) :
  (forall merged : list string,
     length (batches merged) = ceil_div (length merged) 100 /\
     Forall (fun b => 1 <= length b <= 100) (batches merged) /\
     (0 < length merged ->
      length (last (batches merged) []) =
      if length merged mod 100 =? 0 then 100 else length merged mod 100) /\
     concat (batches merged) = merged /\
     length (concat (batches merged)) = length merged) /\
  (reliable sp ->
   exists ext w',
     merge_playlists sp src1 src2 new_name lim w = (Ok tt, w') /\
     calls w' = calls w ++ ext /\
     items_added ext =
       map (pair (new_playlist_id sp (length (library w))))
           (batches (merged_of sp src1 src2 lim)) /\
     lookup (new_playlist_id sp (length (library w))) (library w') =
       Some {| st_id := new_playlist_id sp (length (library w));
               st_owner := me sp; st_name := new_name; st_public := false;
               st_tracks := merged_of sp src1 src2 lim |}).
Proof.
  split.
  - intro merged. split; [apply batches_length|].
    split; [apply batches_sizes|].
    split; [apply batches_last|].
    split; [apply batches_concat|].
    now rewrite batches_concat.
  - intro R. eexists. eexists.
    split; [apply merge_playlists_quiet, reliable_quiet, R|].
    cbn [calls library lookup st_id]. split; [reflexivity|].
    rewrite items_added_app, items_added_merge_prelude, items_added_adds.
    rewrite String.eqb_refl. split; reflexivity.
Qed.

Lemma merge_playlists_batches_witness :
  length (last (batches (repeat "u" 250)) []) = 50 /\
  exists w',
    merge_playlists (sample never) "L" "B" "mix" 150 fresh = (Ok tt, w') /\
    map (fun c => length (snd c)) (items_added (calls w')) = [100; 22].
Proof.
  destruct (merge_playlists_batches (sample never) "L" "B" "mix" 150 fresh)
    as [H1 H2].
  split.
  - destruct (H1 (repeat "u" 250)) as (_ & _ & H & _).
    rewrite H; [reflexivity | vm_compute; lia].
  - destruct (H2 reliable_never) as (ext & w' & E & C & A & _).
    exists w'. split; [exact E|].
    rewrite C. change (calls fresh ++ ext) with ext.
    rewrite A. vm_compute. reflexivity.
Defined.

Lemma merge_playlists_reaches_create (sp : service)
    (src1 src2 new_name : string) (lim : Z) (w : world) r w' ext :
  merge_playlists sp src1 src2 new_name lim w = (r, w') ->
  calls w' = calls w ++ ext ->
  quiet sp (calls w)
    (CurrentUser :: fetch_calls sp src1 URI_FIELDS (Some lim)
     ++ fetch_calls sp src2 URI_FIELDS (Some lim)) ->
  creations ext = [(me sp, new_name, false)].
Proof.
  intros H C Q.
  rewrite merge_playlists_replay, merge_script_calls in H.
  rewrite merge_prelude_split in H.
  set (reads := CurrentUser :: fetch_calls sp src1 URI_FIELDS (Some lim)
                ++ fetch_calls sp src2 URI_FIELDS (Some lim)) in *.
  set (adds := add_calls _ _) in H.
  set (line := Print _) in H.
  replace (map Call ((reads ++ [UserPlaylistCreate (me sp) new_name false])
                     ++ adds) ++ [line])
    with (map Call reads
          ++ Call (UserPlaylistCreate (me sp) new_name false)
             :: (map Call adds ++ [line])) in H
    by (rewrite !map_app, <- !app_assoc; reflexivity).
  assert (Rc : creations reads = [])
    by (apply creations_readonly, readonly_merge_reads).
  assert (Ac : creations adds = []) by apply creations_adds.
  clearbody reads adds.
  rewrite replay_app, (replay_quiet sp _ w Q) in H.
  cbn [replay] in H.
  destruct (fault sp _ _) as [msg|].
  - cbn [finish] in H. injection H as _ <-.
    rewrite calls_log, calls_perform, <- app_assoc in C.
    apply app_inv_head in C. subst ext.
    rewrite creations_app, Rc. reflexivity.
  - destruct (replay sp (map Call adds ++ [line]) _) as [r0 w0] eqn:E.
    destruct (replay_prefix sp _ _ _ _ E) as (n & P & _).
    assert (w0 = w') by (destruct r0; simpl in H; congruence). subst w0.
    rewrite calls_effect, calls_log, calls_perform, <- !app_assoc in P.
    rewrite C in P. apply app_inv_head in P. subst ext.
    rewrite calls_of_app, calls_of_calls. unfold line. cbn [calls_of].
    rewrite app_nil_r, !creations_app, Rc.
    destruct (creations_firstn adds n) as [m ->].
    rewrite Ac, firstn_nil. reflexivity.
Qed.

Lemma merge_playlists_creations (sp : service)
    (src1 src2 new_name : string) (lim : Z) (w : world) r w' :
  merge_playlists sp src1 src2 new_name lim w = (r, w') ->
  exists ext,
    calls w' = calls w ++ ext /\
    (creations ext = [] \/ creations ext = [(me sp, new_name, false)]) /\
    (r = Ok tt ->
     creations ext = [(me sp, new_name, false)] /\
     exists id tracks,
       library w' =
       {| st_id := id; st_owner := me sp; st_name := new_name;
          st_public := false; st_tracks := tracks |} :: library w).
Proof.
  intro H.
  assert (P := H). rewrite merge_playlists_replay in P.
  destruct (replay sp _ w) as [r0 w0] eqn:E.
  destruct (replay_prefix sp _ _ _ _ E) as (n & C & _).
  assert (w0 = w') by (destruct r0; simpl in P; congruence). subst w0.
  exists (firstn n (calls_of (merge_script sp src1 src2 new_name lim w))).
  split; [exact C|].
  assert (Cr : creations
                 (calls_of (merge_script sp src1 src2 new_name lim w))
               = [(me sp, new_name, false)]).
  { rewrite merge_script_calls, calls_of_app, calls_of_calls.
    cbn [calls_of]. rewrite app_nil_r, creations_app.
    now rewrite creations_merge_prelude, creations_adds. }
  split.
  - destruct (creations_firstn
                (calls_of (merge_script sp src1 src2 new_name lim w)) n)
      as [m ->].
    rewrite Cr. destruct m as [|m]; [now left|right].
    cbn [firstn]. now rewrite firstn_nil.
  - intros ->. apply merge_playlists_ok_inv in H. subst w'.
    cbn [calls] in C. apply app_inv_head in C. rewrite <- C.
    rewrite creations_app, creations_merge_prelude, creations_adds.
    split; [reflexivity|]. eexists. eexists. reflexivity.
Qed.

(** C8.  In every run of [merge_playlists] at most one playlist is created,
    and the creation call names the user answered by [current_user],
    [new_name], and [public=False]; the call is made exactly once in every
    run whose user lookup and page fetches do not raise, in particular in
    every run that completes, after which the service holds the new
    playlist with that owner, that name, not public. *)
Theorem merge_playlists_creates_once (sp : service)
    (src1 src2 new_name : string) (lim : Z) (w : world) :
  (forall w0 u w1, sp_current_user sp w0 = (Ok u, w1) -> user_id u = me sp) /\
  (forall r w',
     merge_playlists sp src1 src2 new_name lim w = (r, w') ->
     exists ext,
       calls w' = calls w ++ ext /\
       (creations ext = [] \/ creations ext = [(me sp, new_name, false)]) /\
       (quiet sp (calls w)
          (CurrentUser :: fetch_calls sp src1 URI_FIELDS (Some lim)
           ++ fetch_calls sp src2 URI_FIELDS (Some lim)) ->
        creations ext = [(me sp, new_name, false)]) /\
       (r = Ok tt ->
        creations ext = [(me sp, new_name, false)] /\
        exists id tracks,
          library w' =
          {| st_id := id; st_owner := me sp; st_name := new_name;
             st_public := false; st_tracks := tracks |} :: library w)).
Proof.
  split.
  - intros w0 u w1. unfold sp_current_user, request.
    destruct (fault sp (calls w0) CurrentUser); [discriminate|].
    intro H. injection H as <- _. reflexivity.
  - intros r w' H.
    destruct (merge_playlists_creations _ _ _ _ _ _ _ _ H)
      as (ext & C & A & K).
    exists ext. split; [exact C|]. split; [exact A|]. split; [|exact K].
    now apply (merge_playlists_reaches_create _ _ _ _ _ _ _ _ _ H C).
Qed.

Lemma merge_playlists_creates_once_witness :
  exists w',
    merge_playlists (sample never) "A" "B" "mix" 100 fresh = (Ok tt, w') /\
    creations (calls w') = [("user-1", "mix", false)].
Proof.
  destruct (merge_playlists_creates_once (sample never) "A" "B" "mix" 100
              fresh) as [_ H].
  destruct (merge_playlists (sample never) "A" "B" "mix" 100 fresh)
    as [r w'] eqn:E.
  destruct (H r w' eq_refl) as (ext & C & _ & _ & K).
  assert (R : r = Ok tt) by (vm_compute in E; congruence).
  exists w'. split; [now rewrite R|].
  rewrite C. change (calls fresh ++ ext) with ext. exact (proj1 (K R)).
Defined.

(** C4, as stated, fails: [merge_playlists] returns [None], and the line it
    prints does not contain the reference of the playlist it created. *)
Lemma merge_playlists_returns_nothing :
  exists w',
    merge_playlists (sample never) "A" "B" "mix" 100 fresh = (Ok tt, w') /\
    map st_id (library w') = ["playlist-0"] /\
    stdout w' = ["created playlist 'mix' with 5 tracks."] /\
    forall line, In line (stdout w') -> index 0 "playlist-0" line = None.
Proof.
  eexists. split; [vm_compute; reflexivity|].
  cbn [library stdout map st_id]. split; [reflexivity|].
  split; [reflexivity|].
  intros line [<-|[]]. vm_compute. reflexivity.
Qed.

(** C4, amended.  A run of [merge_playlists] that completes returns [None]
    and prints exactly one line, [created playlist '<new_name>' with <M>
    tracks.], where [M], in decimal, is the number of tracks written to the
    new playlist; on a service that does not raise the run completes. *)
Theorem merge_playlists_summary (sp : service) (src1 src2 new_name : string)
    (lim : Z) (w : world) :
  (forall (r : unit) w',
     merge_playlists sp src1 src2 new_name lim w = (Ok r, w') ->
     r = tt /\
     exists M dest,
       stdout w' =
         stdout w ++ [("created playlist '" ++ new_name ++ "' with "
                       ++ str_of_nat M ++ " tracks.")%string] /\
       parse_nat (str_of_nat M) = Some M /\
       library w' = dest :: library w /\
       length (st_tracks dest) = M /\
       length (concat (map snd (items_added (calls w')))) =
       length (concat (map snd (items_added (calls w)))) + M) /\
  (reliable sp ->
   exists w', merge_playlists sp src1 src2 new_name lim w = (Ok tt, w')).
Proof.
  split.
  - intros [] w' H. split; [reflexivity|].
    apply merge_playlists_ok_inv in H. subst w'.
    exists (length (merged_of sp src1 src2 lim)). eexists.
    cbn [stdout library calls].
    split; [reflexivity|]. split; [apply parse_str_of_nat|].
    split; [reflexivity|]. split; [reflexivity|].
    rewrite !items_added_app, items_added_merge_prelude, items_added_adds.
    cbn [app]. rewrite map_app, concat_app, length_app, map_map. cbn [snd].
    rewrite map_id, batches_concat. reflexivity.
  - intro R. eexists. apply merge_playlists_quiet, reliable_quiet, R.
Qed.

Lemma merge_playlists_summary_witness :
  exists w',
    merge_playlists (sample never) "A" "B" "mix" 100 fresh = (Ok tt, w') /\
    exists M,
      stdout w' = [("created playlist 'mix' with " ++ str_of_nat M
                    ++ " tracks.")%string] /\
      length (concat (map snd (items_added (calls w')))) = M.
Proof.
  destruct (merge_playlists_summary (sample never) "A" "B" "mix" 100 fresh)
    as [H1 H2].
  destruct (H2 reliable_never) as [w' E].
  exists w'. split; [exact E|].
  destruct (H1 tt w' E) as (_ & M & dest & O & _ & _ & _ & T).
  exists M. split; [exact O | exact T].
Defined.

(** C7.  When [--name] is not given, [main] runs [merge_playlists] with the
    name [Mixed playlist YYYY-MM-DD]: four digits of the year, two of the
    month and two of the day of the current date, separated by hyphens;
    this is the name of every playlist the run creates. *)
Theorem main_default_name (sp : service) (now : datetime)
    (src1 src2 : string) (lim : Z) (w : world) :
  1000 <= year now <= MAXYEAR ->
  1 <= month now <= 12 ->
  1 <= day now <= 31 ->
  exists d,
    iso_date d (year now) (month now) (day now) /\
    main sp now (Merge src1 src2 None lim) w =
    merge_playlists sp src1 src2 ("Mixed playlist " ++ d)%string lim w /\
    forall r w',
      main sp now (Merge src1 src2 None lim) w = (r, w') ->
      exists ext,
        calls w' = calls w ++ ext /\
        (creations ext = [] \/
         creations ext = [(me sp, ("Mixed playlist " ++ d)%string, false)]) /\
        (r = Ok tt ->
         creations ext = [(me sp, ("Mixed playlist " ++ d)%string, false)]).
Proof.
  intros Hy Hm Hd. exists (strftime_Ymd now).
  split; [apply strftime_iso; lia|]. split; [reflexivity|].
  intros r w' H.
  destruct (merge_playlists_creations _ _ _ _ _ _ _ _ H) as (ext & C & A & K).
  exists ext. split; [exact C|]. split; [exact A|].
  intro R. exact (proj1 (K R)).
Qed.

Lemma main_default_name_witness :
  exists d w',
    iso_date d 2024 3 9 /\
    main (sample never) a_date (Merge "A" "B" None 100) fresh = (Ok tt, w') /\
    creations (calls w') = [("user-1", ("Mixed playlist " ++ d)%string, false)].
Proof.
  assert (Hy : 1000 <= year a_date <= MAXYEAR) by (vm_compute; lia).
  assert (Hm : 1 <= month a_date <= 12) by (vm_compute; lia).
  assert (Hd : 1 <= day a_date <= 31) by (vm_compute; lia).
  destruct (main_default_name (sample never) a_date "A" "B" 100 fresh
              Hy Hm Hd) as (d & I & _ & K).
  destruct (main (sample never) a_date (Merge "A" "B" None 100) fresh)
    as [r w'] eqn:E.
  assert (R : r = Ok tt) by (vm_compute in E; congruence).
  destruct (K r w' eq_refl) as (ext & C & _ & Cr).
  exists d, w'. split; [exact I|]. split; [now rewrite R|].
  rewrite C. change (calls fresh ++ ext) with ext. exact (Cr R).
Defined.

Lemma finish_fail_fast {A} (sp : service) (a : A) evs w r w' :
  finish a (replay sp evs w) = (r, w') ->
  forall pre c post e,
    calls w' = calls w ++ pre ++ c :: post ->
    fault sp (calls w ++ pre) c = Some e ->
    r = Err (SpotifyException e) /\ post = [].
Proof.
  intros H pre c post e C F.
  destruct (replay sp evs w) as [r0 w0] eqn:E.
  destruct (replay_fail_fast sp _ _ _ _ E) as (ext & C0 & P).
  assert (w0 = w') by (destruct r0; simpl in H; congruence). subst w0.
  rewrite C in C0. apply app_inv_head in C0.
  destruct (P pre c post e (eq_sym C0) F) as [-> ->].
  simpl in H. split; congruence.
Qed.

(** C6.  In every run of the tool ([main], and [get_all_track_uris] on its
    own) a call on the client that raises is the last call of the run, and
    the run ends with the error of that call, unchanged.  In
    [merge_playlists], when the creation and the first [k] batch writes
    succeed and the next batch write raises, the run ends with that error;
    the failed write is its last call, and the new playlist is left holding
    the [k] batches already written. *)
Theorem errors_propagate (sp : service) (w : world) :
  (forall now args r w' pre c post e,
     main sp now args w = (r, w') ->
     calls w' = calls w ++ pre ++ c :: post ->
     fault sp (calls w ++ pre) c = Some e ->
     r = Err (SpotifyException e) /\ post = []) /\
  (forall id limit r w' pre c post e,
     get_all_track_uris sp id limit w = (r, w') ->
     calls w' = calls w ++ pre ++ c :: post ->
     fault sp (calls w ++ pre) c = Some e ->
     r = Err (SpotifyException e) /\ post = []) /\
  (forall src1 src2 new_name lim k e,
     let id := new_playlist_id sp (length (library w)) in
     let bs := batches (merged_of sp src1 src2 lim) in
     let done := merge_prelude sp src1 src2 new_name lim
                 ++ add_calls id (firstn k bs) in
     k < length bs ->
     quiet sp (calls w) done ->
     fault sp (calls w ++ done) (PlaylistAddItems id (nth k bs [])) = Some e ->
     merge_playlists sp src1 src2 new_name lim w =
     (Err (SpotifyException e),
      {| calls := calls w ++ done ++ [PlaylistAddItems id (nth k bs [])];
         stdout := stdout w;
         library := {| st_id := id; st_owner := me sp; st_name := new_name;
                       st_public := false;
                       st_tracks := concat (firstn k bs) |}
                    :: library w |})).
Proof.
  split; [|split].
  - intros now [src1 src2 name lim|playlist] r w' pre c post e H;
      cbn [main] in H.
    + rewrite merge_playlists_replay in H. eapply finish_fail_fast, H.
    + rewrite print_titles_replay in H. eapply finish_fail_fast, H.
  - intros id limit r w' pre c post e H.
    rewrite get_all_track_uris_replay in H. eapply finish_fail_fast, H.
  - intros. now apply merge_playlists_partial.
Qed.

Lemma errors_propagate_witness :
  fst (main (sample user_lookup_fails) a_date (Titles "T") fresh)
  = Ok tt /\
  fst (main (sample user_lookup_fails) a_date (Merge "A" "B" None 100) fresh)
  = Err (SpotifyException "401 Unauthorized") /\
  exists w',
    merge_playlists (sample second_write_fails) "L" "B" "mix" 150 fresh
    = (Err (SpotifyException "502 Bad Gateway"), w') /\
    map (fun c => length (snd c)) (items_added (calls w')) = [100; 22] /\
    map (fun p => length (st_tracks p)) (library w') = [100].
Proof.
  split; [vm_compute; reflexivity|].
  split.
  - destruct (errors_propagate (sample user_lookup_fails) fresh) as (H & _).
    destruct (main (sample user_lookup_fails) a_date
                (Merge "A" "B" None 100) fresh) as [r w'] eqn:E.
    assert (C : calls w' = calls fresh ++ [] ++ CurrentUser :: [])
      by (vm_compute in E; injection E as _ <-; reflexivity).
    exact (proj1 (H a_date _ r w' [] CurrentUser [] "401 Unauthorized"
                    E C eq_refl)).
  - destruct (errors_propagate (sample second_write_fails) fresh)
      as (_ & _ & H).
    specialize (H "L" "B" "mix" 150%Z 1 "502 Bad Gateway").
    cbv zeta in H. eexists. split.
    + apply H.
      * vm_compute. lia.
      * apply quietb_sound. vm_compute. reflexivity.
      * vm_compute. reflexivity.
    + split; vm_compute; reflexivity.
Defined.

Lemma last_primary_own ts i t x :
  nth_error ts i = Some t ->
  primary t = Some x ->
  last_primary (firstn (S i) ts) = Some x.
Proof.
  intros Hi Hx.
  assert (L : i < length ts) by (apply nth_error_Some; congruence).
  rewrite (firstn_snoc t ts i L), (nth_error_nth ts i t Hi).
  now rewrite last_primary_snoc, Hx.
Qed.

(** C5 at a playlist the code mishandles: two attached tracks, the first
    without artists; [print_titles] raises [UnboundLocalError] and prints
    no line, where the claim has one line per attached track. *)
Lemma print_titles_skips_tracks :
  length (all_tracks (first_page (sample never) "U")) = 2 /\
  exists w',
    print_titles (sample never) "U" fresh
    = (Err (UnboundLocalError "artist_name"), w') /\
    stdout w' = [].
Proof.
  split; [reflexivity|]. eexists. split; [vm_compute; reflexivity|].
  reflexivity.
Qed.

(** C5 where the code meets it.  On a service that does not raise, for a
    playlist whose first attached track, if any, lists an artist,
    [print_titles] prints
    one line per slot with an attached track, in order, each
    [<name> - <artist>], where the artist is the primary artist of the
    most recent track, up to this one, that lists any: the track's own
    when it has one, else the one carried over from before. *)
Theorem print_titles_lines (sp : service) (id : string) (w : world) :
  reliable sp ->
  let ts := all_tracks (first_page sp id) in
  (forall t, hd_error ts = Some t -> primary t <> None) ->
  exists lines w',
    print_titles sp id w = (Ok tt, w') /\
    stdout w' = stdout w ++ lines /\
    length lines = length ts /\
    forall i t,
      nth_error ts i = Some t ->
      exists a,
        last_primary (firstn (S i) ts) = Some a /\
        nth_error lines i = Some (track_name t ++ " - " ++ a)%string /\
        (forall x, primary t = Some x -> a = x).
Proof.
  intros R ts H.
  assert (Rd : ready None ts) by (right; exact H).
  destruct (titles_script_ready (first_page sp id) None Rd) as [P N].
  destruct (replay_smooth sp (print_titles_script sp id) w
              (reliable_quiet sp _ _ R) N) as (w' & E & _ & O).
  exists (lines_from None ts), w'.
  split; [now rewrite print_titles_replay, E|].
  split; [rewrite O; unfold print_titles_script; cbn [prints_of];
          now rewrite P|].
  split; [now apply lines_from_length|].
  intros i t Hi.
  destruct (lines_from_nth ts None i t Rd Hi) as (a & C & L).
  rewrite carry_last_primary in C.
  exists a. split; [exact C|]. split; [exact L|].
  intros x Hx. rewrite (last_primary_own ts i t x Hi Hx) in C. congruence.
Qed.

Lemma print_titles_lines_witness :
  exists w',
    print_titles (sample never) "T" fresh = (Ok tt, w') /\
    stdout w' = ["X - Y"; "Z - Y"].
Proof.
  assert (H : forall t,
             hd_error (all_tracks (first_page (sample never) "T")) = Some t ->
             primary t <> None).
  { intros t E. vm_compute in E. injection E as <-. discriminate. }
  destruct (print_titles_lines (sample never) "T" fresh reliable_never H)
    as (lines & w' & E & O & _).
  exists w'. split; [exact E|].
  vm_compute in E. injection E as <-. reflexivity.
Defined.

(** C10.  On a service that does not raise, when the first attached track
    of a playlist lists no artist (an empty or absent list),
    [print_titles] raises [UnboundLocalError] for [artist_name] on that
    track, and prints nothing. *)
Theorem print_titles_unbound (sp : service) (id : string) (w : world)
    (t : track) (ts : list track) :
  reliable sp ->
  all_tracks (first_page sp id) = t :: ts ->
  primary t = None ->
  exists w',
    print_titles sp id w = (Err (UnboundLocalError "artist_name"), w') /\
    stdout w' = stdout w.
Proof.
  intros R H E.
  destruct (titles_script_unbound (first_page sp id) t ts H E)
    as (cs & rest & S & _).
  rewrite print_titles_replay. unfold print_titles_script. rewrite S.
  change (Call (PlaylistTracks id TITLE_FIELDS)
          :: map Call cs
             ++ Raise (UnboundLocalError "artist_name") :: rest)
    with (map Call (PlaylistTracks id TITLE_FIELDS :: cs)
          ++ Raise (UnboundLocalError "artist_name") :: rest).
  rewrite replay_app, (replay_quiet sp _ w (reliable_quiet sp _ _ R)).
  eexists. split; [reflexivity|]. apply stdout_perform.
Qed.

Lemma print_titles_unbound_witness :
  exists w',
    print_titles (sample never) "U" fresh
    = (Err (UnboundLocalError "artist_name"), w') /\
    stdout w' = stdout fresh.
Proof.
  apply (print_titles_unbound (sample never) "U" fresh
           {| track_uri := "z"; track_name := "Z"; track_artists := Some [] |}
           [{| track_uri := "x"; track_name := "X";
               track_artists := Some [{| a_name := "Y" |}] |}]).
  - exact reliable_never.
  - reflexivity.
  - reflexivity.
Defined.

(** * Further properties of the code *)

Section Traces.

Variable sp : service.

(** Calls print nothing, whether they raise or not. *)
Lemma replay_calls_stdout cs :
  forall w, stdout (snd (replay sp (map Call cs) w)) = stdout w.
Proof.
  induction cs as [|c cs IH]; intro w; cbn [map replay].
  - reflexivity.
  - destruct (fault sp (calls w) c); [reflexivity|].
    now rewrite IH, stdout_effect.
Qed.

(** A script of reading calls leaves the library alone, however it ends. *)
Lemma replay_readonly_library evs :
  forall w,
    forallb readonly (calls_of evs) = true ->
    library (snd (replay sp evs w)) = library w.
Proof.
  induction evs as [|[c|l|e] evs IH]; intros w H; cbn [replay calls_of] in *.
  - reflexivity.
  - cbn [forallb] in H. apply andb_prop in H as [Hc H].
    destruct (fault sp (calls w) c); [reflexivity|].
    rewrite IH by exact H. now rewrite effect_readonly.
  - now rewrite IH.
  - reflexivity.
Qed.

(** The lines of a run are an initial part of those of its script. *)
Lemma replay_prints_prefix evs :
  forall w,
  exists n,
    stdout (snd (replay sp evs w)) = stdout w ++ firstn n (prints_of evs) /\
    (fst (replay sp evs w) = None ->
     stdout (snd (replay sp evs w)) = stdout w ++ prints_of evs).
Proof.
  induction evs as [|[c|l|e] evs IH]; intro w; cbn [replay prints_of].
  - exists 0. simpl. now rewrite app_nil_r.
  - destruct (fault sp (calls w) c).
    + exists 0. simpl. split; [now rewrite app_nil_r | discriminate].
    + destruct (IH (effect sp c (log c w))) as (n & P & F).
      rewrite stdout_effect in P, F. exists n. split; assumption.
  - destruct (IH (emit l w)) as (n & P & F). cbn [emit stdout] in P, F.
    rewrite <- app_assoc in P, F. exists (S n). split; assumption.
  - exists 0. simpl. split; [now rewrite app_nil_r | discriminate].
Qed.

(** A script that starts with a call logs that call at least. *)
Lemma replay_prefix_call c evs w :
  exists n,
    calls (snd (replay sp (Call c :: evs) w)) =
    calls w ++ c :: firstn n (calls_of evs).
Proof.
  cbn [replay]. destruct (fault sp (calls w) c).
  - exists 0. reflexivity.
  - destruct (replay sp evs (effect sp c (log c w))) as [r w'] eqn:E.
    destruct (replay_prefix sp _ _ _ _ E) as (n & C & _).
    rewrite calls_effect, calls_log, <- app_assoc in C.
    exists n. exact C.
Qed.

Lemma replay_calls_quiet_inv cs :
  forall w w1,
    replay sp (map Call cs) w = (None, w1) -> quiet sp (calls w) cs.
Proof.
  induction cs as [|c cs IH]; intros w w1 H pre c' post E.
  - now destruct pre.
  - cbn [map replay] in H.
    destruct (fault sp (calls w) c) eqn:F; [discriminate|].
    destruct pre as [|x pre]; injection E as <- E.
    + now rewrite app_nil_r.
    + specialize (IH _ _ H pre c' post E).
      now rewrite calls_effect, calls_log, <- app_assoc in IH.
Qed.

Lemma finish_snd {A} (a : A) r : snd (finish a r) = snd r.
Proof. destruct r as [[e|] w]; reflexivity. Qed.

Lemma calls_of_items_script items :
  forall a, calls_of (fst (items_script items a)) = [].
Proof.
  induction items as [|item rest IH]; intro a; cbn [items_script].
  - reflexivity.
  - destruct (item_track item) as [t|]; [|apply IH].
    destruct (match artists_or_empty t with
              | [] => a
              | x :: _ => Some (a_name x)
              end) as [a'|]; [|reflexivity].
    specialize (IH (Some a')).
    destruct (items_script rest (Some a')) as [evs r]. exact IH.
Qed.

(** The script of [print_titles] asks for every page of the chain. *)
Lemma calls_of_titles_script p :
  forall a, calls_of (titles_script p a) = map Next (tl (pages_of p)).
Proof.
  induction p as [items|items q IH] using page_chain_ind; intro a;
    cbn [titles_script pages_of tl];
    pose proof (calls_of_items_script items a) as I;
    destruct (items_script items a) as [evs a']; cbn [fst] in I;
    rewrite calls_of_app, I.
  - reflexivity.
  - cbn [calls_of app]. rewrite IH. destruct q; reflexivity.
Qed.

Lemma readonly_nexts cs : forallb readonly (map Next cs) = true.
Proof. induction cs; simpl; auto. Qed.

Lemma firstn_map_next n cs : firstn n (map Next cs) = map Next (firstn n cs).
Proof. apply firstn_map. Qed.

End Traces.

(** ** get_all_track_uris, beyond the claims *)

(** X1.  With a limit of zero or less [get_all_track_uris] still asks for
    the first page, and only for it: the call is logged, the result is the
    empty list, or the error of that call when it raises. *)
Theorem get_all_track_uris_no_room (sp : service) (id : string) (L : Z)
    (w : world) :
  (L <= 0)%Z ->
  get_all_track_uris sp id (Some L) w =
  (match fault sp (calls w) (PlaylistTracks id URI_FIELDS) with
   | Some e => Err (SpotifyException e)
   | None => Ok []
   end,
   log (PlaylistTracks id URI_FIELDS) w).
Proof.
  intro H. unfold get_all_track_uris, bind, sp_playlist_tracks, request.
  change "items.track.uri,next"%string with URI_FIELDS.
  destruct (fault sp (calls w) (PlaylistTracks id URI_FIELDS));
    [reflexivity|].
  destruct (first_page sp id) as [items next].
  cbn [uris_loop under_limit length effect].
  destruct (Z.ltb_spec (Z.of_nat 0) L); [lia | reflexivity].
Qed.

Lemma get_all_track_uris_no_room_witness :
  get_all_track_uris (sample never) "A" (Some 0%Z) fresh =
  (Ok [], log (PlaylistTracks "A" URI_FIELDS) fresh).
Proof.
  exact (get_all_track_uris_no_room (sample never) "A" 0 fresh
           ltac:(reflexivity || lia)).
Defined.

Lemma followed_prefix (sp : service) id limit :
  exists k, followed sp id limit = firstn k (tl (pages_of (first_page sp id))).
Proof.
  unfold followed. destruct limit as [L|].
  - destruct (walk_some_pages L (first_page sp id) []) as (k & E & _).
    now exists k.
  - rewrite walk_none. exists (length (tl (pages_of (first_page sp id)))).
    cbn [fst]. now rewrite firstn_all.
Qed.

(** X2.  Whatever the service does, [get_all_track_uris] only reads: it
    prints nothing, leaves the library as it is, and its calls are the
    request for the first page followed by requests for the next pages of
    the chain, in order, each at most once. *)
Theorem get_all_track_uris_read_only (sp : service) (id : string)
    (limit : option Z) (w : world) :
  stdout (snd (get_all_track_uris sp id limit w)) = stdout w /\
  library (snd (get_all_track_uris sp id limit w)) = library w /\
  exists m,
    calls (snd (get_all_track_uris sp id limit w)) =
    calls w ++ PlaylistTracks id URI_FIELDS
               :: map Next (firstn m (tl (pages_of (first_page sp id)))).
Proof.
  rewrite get_all_track_uris_replay, finish_snd.
  split; [apply replay_calls_stdout|].
  split.
  - apply replay_readonly_library.
    rewrite calls_of_calls. apply readonly_fetch_calls.
  - unfold fetch_calls. cbn [map].
    destruct (replay_prefix_call sp (PlaylistTracks id URI_FIELDS)
                (map Call (map Next (followed sp id limit))) w) as [n C].
    rewrite calls_of_calls, firstn_map_next in C.
    destruct (followed_prefix sp id limit) as [k F].
    rewrite C, F, firstn_firstn.
    exists (Nat.min n k). reflexivity.
Qed.

(** ** The merge loop, beyond the claims *)

Lemma interleave_perm {A} (a : list A) :
  forall b, Permutation (interleave a b) (a ++ b).
Proof.
  induction a as [|x a IH]; intros [|y b]; cbn [interleave app].
  - constructor.
  - apply Permutation_refl.
  - rewrite app_nil_r. apply Permutation_refl.
  - constructor. apply Permutation_cons_app, IH.
Qed.

(** X3.  The merge loses and duplicates nothing: the merged sequence is a
    rearrangement of the two sequences put end to end, so a URI occurs in
    it as often as in both together, and one present in both sources is
    kept twice. *)
Theorem merge_tracks_permutation (A B : list string) :
  Permutation (merge_tracks A B) (A ++ B) /\
  forall u,
    count_occ string_dec (merge_tracks A B) u =
    count_occ string_dec A u + count_occ string_dec B u.
Proof.
  assert (P : Permutation (merge_tracks A B) (A ++ B))
    by (rewrite merge_tracks_interleave; apply interleave_perm).
  split; [exact P|]. intro u.
  rewrite (Permutation_count_occ string_dec) in P.
  rewrite P. apply count_occ_app.
Qed.

(** X4.  Merging with an empty sequence, on either side, gives the other
    sequence unchanged. *)
Theorem merge_tracks_empty (A : list string) :
  merge_tracks A [] = A /\ merge_tracks [] A = A.
Proof.
  rewrite !merge_tracks_interleave. split.
  - apply interleave_nil_r.
  - reflexivity.
Qed.

(** ** The batch loop, beyond the claims *)

Lemma range_from_nth step stop fuel :
  forall start k i,
    nth_error (range_from fuel start stop step) k = Some i ->
    i = start + k * step.
Proof.
  induction fuel as [|fuel IH]; intros start k i H; cbn [range_from] in H.
  - destruct k; discriminate.
  - destruct (start <? stop); [|destruct k; discriminate].
    destruct k as [|k]; cbn [nth_error] in H.
    + injection H as <-. lia.
    + apply IH in H. lia.
Qed.

(** X5.  The [k]-th batch written is [merged[100k : 100k + 100]]; every
    batch before the last holds exactly 100 URIs; and there is no batch,
    hence no write, exactly when the merged sequence is empty. *)
Theorem batches_positions (merged : list string) :
  (forall k b,
     nth_error (batches merged) k = Some b ->
     b = firstn 100 (skipn (100 * k) merged) /\
     (S k < length (batches merged) -> length b = 100)) /\
  (batches merged = [] <-> merged = []).
Proof.
  split.
  - intros k b H. assert (E : b = firstn 100 (skipn (100 * k) merged)).
    { unfold batches in H. rewrite nth_error_map in H.
      destruct (nth_error (py_range 0 (length merged) BATCH) k) as [i|] eqn:R;
        [|discriminate].
      apply range_from_nth in R. injection H as <-. subst i.
      unfold slice, BATCH.
      replace (0 + k * 100 + 100 - (0 + k * 100)) with 100 by lia.
      replace (0 + k * 100) with (100 * k) by lia. reflexivity. }
    split; [exact E|]. intro Hk.
    rewrite batches_length in Hk. unfold ceil_div, BATCH in Hk.
    rewrite E, length_firstn, length_skipn.
    destruct (Nat.eqb_spec (length merged mod 100) 0); lia.
  - split; intro H.
    + pose proof (batches_concat merged) as C. rewrite H in C.
      now rewrite <- C.
    + now subst.
Qed.

Lemma batches_positions_witness :
  nth_error (batches (repeat "u" 250)) 1 =
  Some (firstn 100 (skipn (100 * 1) (repeat "u" 250))) /\
  length (firstn 100 (skipn (100 * 1) (repeat "u" 250))) = 100.
Proof.
  destruct (batches_positions (repeat "u" 250)) as [H _].
  destruct (nth_error (batches (repeat "u" 250)) 1) as [b|] eqn:E;
    [|vm_compute in E; discriminate].
  destruct (H 1 b E) as [-> F]. split; [reflexivity|].
  apply F. vm_compute. lia.
Defined.

(** ** merge_playlists, beyond the claims *)

Lemma fetched_some (sp : service) id L :
  fetched sp id (Some L) = firstn (Z.to_nat L) (all_uris (first_page sp id)).
Proof.
  unfold fetched. rewrite walk_some_uris. cbn [length app].
  now rewrite Nat.sub_0_r.
Qed.

(** X6.  When there is nothing to merge, because the limit is zero or less
    or because neither source has an attached track, [merge_playlists] on a
    service that does not raise still creates the playlist, writes no
    batch, and reports 0 tracks. *)
Theorem merge_playlists_nothing_to_merge (sp : service)
    (src1 src2 new_name : string) (lim : Z) (w : world) :
  reliable sp ->
  (lim <= 0)%Z \/
  (all_uris (first_page sp src1) = [] /\ all_uris (first_page sp src2) = []) ->
  merge_playlists sp src1 src2 new_name lim w =
  (Ok tt,
   {| calls := calls w ++ merge_prelude sp src1 src2 new_name lim;
      stdout := stdout w
                ++ [("created playlist '" ++ new_name ++ "' with 0 tracks.")
                    %string];
      library := {| st_id := new_playlist_id sp (length (library w));
                    st_owner := me sp; st_name := new_name;
                    st_public := false; st_tracks := [] |}
                 :: library w |}).
Proof.
  intros R H.
  assert (E : merged_of sp src1 src2 lim = []).
  { unfold merged_of. rewrite !fetched_some.
    destruct H as [H|[H1 H2]].
    - replace (Z.to_nat lim) with 0 by lia. reflexivity.
    - rewrite H1, H2, firstn_nil. reflexivity. }
  rewrite merge_playlists_quiet by (apply reliable_quiet, R).
  rewrite E. cbn [batches length py_range range_from map add_calls].
  rewrite app_nil_r. reflexivity.
Qed.

Lemma merge_playlists_nothing_to_merge_witness :
  exists w',
    merge_playlists (sample never) "A" "B" "mix" 0 fresh = (Ok tt, w') /\
    stdout w' = ["created playlist 'mix' with 0 tracks."] /\
    map st_tracks (library w') = [[]].
Proof.
  eexists. split.
  - apply (merge_playlists_nothing_to_merge (sample never) "A" "B" "mix" 0
             fresh reliable_never).
    left. lia.
  - split; reflexivity.
Defined.

(** X7.  Whatever the service does, the calls of a run of
    [merge_playlists] are the user lookup followed by an initial part of
    one fixed sequence: the fetches of the first source, those of the
    second, the creation, the batch writes in order.  So nothing is
    fetched after the creation and nothing is written before it. *)
Theorem merge_playlists_call_order (sp : service)
    (src1 src2 new_name : string) (lim : Z) (w : world) :
  exists n,
    calls (snd (merge_playlists sp src1 src2 new_name lim w)) =
    calls w
    ++ CurrentUser
       :: firstn n
            (fetch_calls sp src1 URI_FIELDS (Some lim)
             ++ fetch_calls sp src2 URI_FIELDS (Some lim)
             ++ [UserPlaylistCreate (me sp) new_name false]
             ++ add_calls (new_playlist_id sp (length (library w)))
                  (batches (merged_of sp src1 src2 lim))).
Proof.
  rewrite merge_playlists_replay, finish_snd, merge_script_calls.
  unfold merge_prelude.
  set (f1 := fetch_calls sp src1 URI_FIELDS (Some lim)).
  set (f2 := fetch_calls sp src2 URI_FIELDS (Some lim)).
  set (adds := add_calls _ _). set (line := Print _).
  clearbody f1 f2 adds.
  change (map Call ((CurrentUser
                     :: f1 ++ f2
                        ++ [UserPlaylistCreate (me sp) new_name false])
                    ++ adds) ++ [line])
    with (Call CurrentUser
          :: (map Call ((f1 ++ f2
                         ++ [UserPlaylistCreate (me sp) new_name false])
                        ++ adds) ++ [line])).
  destruct (replay_prefix_call sp CurrentUser
              (map Call ((f1 ++ f2
                          ++ [UserPlaylistCreate (me sp) new_name false])
                         ++ adds) ++ [line]) w) as [n C].
  exists n. rewrite C, calls_of_app, calls_of_calls. unfold line.
  cbn [calls_of]. rewrite app_nil_r, <- !app_assoc. reflexivity.
Qed.

(** X8.  Whatever the service does, a run of [merge_playlists] that makes
    no creation call leaves the library of the service as it was, and a
    run that ends in an error has printed nothing. *)
Theorem merge_playlists_no_stray_effects (sp : service)
    (src1 src2 new_name : string) (lim : Z) (w : world) :
  (forall ext,
     calls (snd (merge_playlists sp src1 src2 new_name lim w))
     = calls w ++ ext ->
     creations ext = [] ->
     library (snd (merge_playlists sp src1 src2 new_name lim w))
     = library w) /\
  (forall e,
     fst (merge_playlists sp src1 src2 new_name lim w) = Err e ->
     stdout (snd (merge_playlists sp src1 src2 new_name lim w)) = stdout w).
Proof.
  split.
  - intros ext C Cr.
    destruct (merge_playlists sp src1 src2 new_name lim w) as [r w'] eqn:H.
    cbn [snd] in *.
    set (reads := CurrentUser :: fetch_calls sp src1 URI_FIELDS (Some lim)
                  ++ fetch_calls sp src2 URI_FIELDS (Some lim)).
    destruct (replay sp (map Call reads) w) as [[e|] w1] eqn:R.
    + assert (L := replay_readonly_library sp (map Call reads) w).
      rewrite calls_of_calls, R in L. cbn [snd] in L.
      rewrite <- L by apply readonly_merge_reads.
      rewrite merge_playlists_replay, merge_script_calls in H.
      rewrite merge_prelude_split in H. fold reads in H.
      rewrite <- app_assoc, map_app, <- app_assoc, replay_app, R in H.
      cbn [finish] in H. congruence.
    + apply replay_calls_quiet_inv in R.
      rewrite (merge_playlists_reaches_create _ _ _ _ _ _ _ _ _ H C R) in Cr.
      discriminate.
  - intros e H.
    rewrite merge_playlists_replay, merge_script_calls, replay_app in *.
    set (cs := merge_prelude _ _ _ _ _ ++ _) in *.
    pose proof (replay_calls_stdout sp cs w) as S.
    destruct (replay sp (map Call cs) w) as [[e'|] w1].
    + exact S.
    + discriminate.
Qed.

Lemma merge_playlists_no_stray_effects_witness :
  library (snd (merge_playlists (sample user_lookup_fails) "A" "B" "mix" 100
                  fresh)) = [] /\
  stdout (snd (merge_playlists (sample user_lookup_fails) "A" "B" "mix" 100
                 fresh)) = [].
Proof.
  destruct (merge_playlists_no_stray_effects (sample user_lookup_fails)
              "A" "B" "mix" 100 fresh) as [H1 H2].
  split.
  - apply (H1 [CurrentUser]); vm_compute; reflexivity.
  - apply (H2 (SpotifyException "401 Unauthorized")). vm_compute. reflexivity.
Defined.

(** X9.  On a service that does not raise, with a limit [L >= 0], the new
    playlist receives [min N1 L + min N2 L] tracks, [N1] and [N2] being the
    numbers of attached tracks of the sources; with [L <= 100], the
    default, that takes at most two batch writes. *)
Theorem merge_playlists_size (sp : service) (src1 src2 new_name : string)
    (lim : Z) (w : world) :
  reliable sp ->
  (0 <= lim)%Z ->
  exists ext w' dest,
    merge_playlists sp src1 src2 new_name lim w = (Ok tt, w') /\
    calls w' = calls w ++ ext /\
    library w' = dest :: library w /\
    Z.of_nat (length (st_tracks dest)) =
      (Z.min (Z.of_nat (length (all_uris (first_page sp src1)))) lim
       + Z.min (Z.of_nat (length (all_uris (first_page sp src2)))) lim)%Z /\
    ((lim <= 100)%Z -> length (items_added ext) <= 2).
Proof.
  intros R H. eexists. eexists. eexists.
  split; [apply merge_playlists_quiet, reliable_quiet, R|].
  cbn [calls library st_tracks].
  split; [reflexivity|]. split; [reflexivity|].
  assert (M : Z.of_nat (length (merged_of sp src1 src2 lim)) =
              (Z.min (Z.of_nat (length (all_uris (first_page sp src1)))) lim
               + Z.min (Z.of_nat (length (all_uris (first_page sp src2))))
                   lim)%Z).
  { unfold merged_of.
    rewrite merge_tracks_interleave, interleave_length, !fetched_some.
    rewrite !length_firstn. lia. }
  split; [exact M|]. intro H100.
  rewrite items_added_app, items_added_merge_prelude, items_added_adds.
  cbn [app]. rewrite length_map, batches_length. unfold ceil_div, BATCH.
  destruct (Nat.eqb_spec (length (merged_of sp src1 src2 lim) mod 100) 0);
    lia.
Qed.

Lemma merge_playlists_size_witness :
  exists w' dest,
    merge_playlists (sample never) "L" "B" "mix" 100 fresh = (Ok tt, w') /\
    library w' = [dest] /\
    length (st_tracks dest) = 102 /\
    length (items_added (calls w')) <= 2.
Proof.
  destruct (merge_playlists_size (sample never) "L" "B" "mix" 100 fresh
              reliable_never ltac:(lia))
    as (ext & w' & dest & E & C & L & T & B).
  exists w', dest. split; [exact E|]. split; [exact L|].
  split.
  - set (total := (Z.min _ _ + Z.min _ _)%Z) in T.
    assert (V : total = 102%Z) by (vm_compute; reflexivity).
    lia.
  - rewrite C. apply B. lia.
Defined.

(** ** print_titles and main, beyond the claims *)

Lemma calls_of_print_titles_script (sp : service) id :
  calls_of (print_titles_script sp id) =
  PlaylistTracks id TITLE_FIELDS
  :: map Next (tl (pages_of (first_page sp id))).
Proof.
  unfold print_titles_script. cbn [calls_of].
  now rewrite calls_of_titles_script.
Qed.

(** X10.  On a service that does not raise, for a playlist whose first
    attached track, if any, lists an artist, [print_titles] asks for the
    first page and then follows every cursor of the chain, to the page that
    has none. *)
Theorem print_titles_walks_all (sp : service) (id : string) (w : world) :
  reliable sp ->
  (forall t, hd_error (all_tracks (first_page sp id)) = Some t ->
             primary t <> None) ->
  calls (snd (print_titles sp id w)) =
  calls w ++ PlaylistTracks id TITLE_FIELDS
             :: map Next (tl (pages_of (first_page sp id))).
Proof.
  intros R H.
  assert (Rd : ready None (all_tracks (first_page sp id))) by (right; exact H).
  destruct (titles_script_ready (first_page sp id) None Rd) as [_ N].
  destruct (replay_smooth sp (print_titles_script sp id) w
              (reliable_quiet sp _ _ R) N) as (w' & E & C & _).
  rewrite print_titles_replay, E. cbn [finish snd].
  now rewrite C, calls_of_print_titles_script.
Qed.

Lemma print_titles_walks_all_witness :
  calls (snd (print_titles (sample never) "A" fresh)) =
  [PlaylistTracks "A" TITLE_FIELDS; Next (Page [song "a2" "A2" ["Abe"]] None)].
Proof.
  apply (print_titles_walks_all (sample never) "A" fresh reliable_never).
  intros t E. vm_compute in E. injection E as <-. discriminate.
Defined.

(** X11.  Whatever the service does, the [titles] command only reads: it
    creates and changes no playlist, and its calls are the request for the
    first page followed by requests for next pages of the chain, in order;
    in particular it never looks the user up. *)
Theorem main_titles_read_only (sp : service) (now : datetime) (id : string)
    (w : world) :
  library (snd (main sp now (Titles id) w)) = library w /\
  exists m,
    calls (snd (main sp now (Titles id) w)) =
    calls w ++ PlaylistTracks id TITLE_FIELDS
               :: map Next (firstn m (tl (pages_of (first_page sp id)))).
Proof.
  cbn [main]. rewrite print_titles_replay, finish_snd. split.
  - apply replay_readonly_library.
    rewrite calls_of_print_titles_script. cbn [forallb readonly andb].
    apply readonly_nexts.
  - unfold print_titles_script.
    destruct (replay_prefix_call sp (PlaylistTracks id TITLE_FIELDS)
                (titles_script (first_page sp id) None) w) as [n C].
    rewrite calls_of_titles_script, firstn_map_next in C.
    exists n. exact C.
Qed.

(** Faults only cut the output short. *)
Lemma replay_truncates (sp sp' : service) evs :
  reliable sp' ->
  forall w w0,
  exists n lines,
    stdout (snd (replay sp' evs w0)) = stdout w0 ++ lines /\
    stdout (snd (replay sp evs w)) = stdout w ++ firstn n lines.
Proof.
  intro R. induction evs as [|[c|l|e] evs IH]; intros w w0; cbn [replay].
  - exists 0, []. now rewrite !app_nil_r.
  - rewrite (R (calls w0) c).
    destruct (fault sp (calls w) c).
    + destruct (IH w (effect sp' c (log c w0))) as (_ & lines & P & _).
      rewrite stdout_effect in P.
      exists 0, lines. split; [exact P|]. cbn [snd firstn log stdout].
      now rewrite app_nil_r.
    + destruct (IH (effect sp c (log c w)) (effect sp' c (log c w0)))
        as (n & lines & P & Q).
      rewrite stdout_effect in P, Q. exists n, lines. split; assumption.
  - destruct (IH (emit l w) (emit l w0)) as (n & lines & P & Q).
    cbn [emit stdout] in P, Q. rewrite <- app_assoc in P, Q.
    exists (S n), (l :: lines). split; assumption.
  - exists 0, []. now rewrite !app_nil_r.
Qed.

(** X12.  The lines [print_titles] prints when calls of the service raise
    are an initial part of the lines it prints when none does: a fault cuts
    the listing short, and what was printed before it stays printed. *)
Theorem print_titles_streams (sp sp' : service) (id : string) (w : world) :
  reliable sp' ->
  first_page sp' = first_page sp ->
  exists n lines,
    stdout (snd (print_titles sp' id w)) = stdout w ++ lines /\
    stdout (snd (print_titles sp id w)) = stdout w ++ firstn n lines.
Proof.
  intros R F. rewrite !print_titles_replay, !finish_snd.
  unfold print_titles_script. rewrite F.
  apply replay_truncates, R.
Qed.

(** The fetch of the second page raises. *)
Lemma print_titles_streams_witness :
  stdout (snd (print_titles (sample never) "A" fresh))
  = ["A0 - Ann"; "A1 - Ann"; "A2 - Abe"] /\
  exists n,
    stdout (snd (print_titles
                   (sample (fun _ c => match c with
                                       | Next _ => Some "500"
                                       | _ => None
                                       end)) "A" fresh))
    = firstn n ["A0 - Ann"; "A1 - Ann"; "A2 - Abe"].
Proof.
  split; [reflexivity|].
  destruct (print_titles_streams
              (sample (fun _ c => match c with
                                  | Next _ => Some "500"
                                  | _ => None
                                  end))
              (sample never) "A" fresh reliable_never eq_refl)
    as (n & lines & P & Q).
  exists n. rewrite Q.
  change (stdout (snd (print_titles (sample never) "A" fresh)))
    with ["A0 - Ann"; "A1 - Ann"; "A2 - Abe"] in P.
  change (stdout fresh) with (@nil string) in *. cbn [app] in *.
  now rewrite <- P.
Defined.

(** X13.  A non-empty [--name] is the name of every playlist [main]
    creates, and an empty one counts as not given: the run is that of the
    default name. *)
Theorem main_given_name (sp : service) (now : datetime) (src1 src2 : string)
    (lim : Z) (w : world) :
  (forall n r w',
     n <> ""%string ->
     main sp now (Merge src1 src2 (Some n) lim) w = (r, w') ->
     exists ext,
       calls w' = calls w ++ ext /\
       (creations ext = [] \/ creations ext = [(me sp, n, false)]) /\
       (r = Ok tt -> creations ext = [(me sp, n, false)])) /\
  main sp now (Merge src1 src2 (Some ""%string) lim) w =
  main sp now (Merge src1 src2 None lim) w.
Proof.
  split; [|reflexivity].
  intros n r w' Hn H. cbn [main name_or_default] in H.
  destruct (String.eqb_spec n ""); [contradiction|].
  destruct (merge_playlists_creations _ _ _ _ _ _ _ _ H) as (ext & C & A & K).
  exists ext. split; [exact C|]. split; [exact A|].
  intro E. exact (proj1 (K E)).
Qed.

Lemma main_given_name_witness :
  exists w',
    main (sample never) a_date (Merge "A" "B" (Some "mix") 100) fresh
    = (Ok tt, w') /\
    creations (calls w') = [("user-1", "mix", false)].
Proof.
  destruct (main_given_name (sample never) a_date "A" "B" 100 fresh)
    as [H _].
  destruct (main (sample never) a_date (Merge "A" "B" (Some "mix") 100) fresh)
    as [r w'] eqn:E.
  assert (R : r = Ok tt) by (vm_compute in E; congruence).
  destruct (H "mix" r w' ltac:(discriminate) E) as (ext & C & _ & K).
  exists w'. split; [now rewrite R|].
  rewrite C. change (calls fresh ++ ext) with ext. exact (K R).
Defined.

Lemma interleave_self {A} (a : list A) :
  interleave a a = flat_map (fun x => [x; x]) a.
Proof.
  induction a as [|x a IH]; [reflexivity|].
  cbn [interleave flat_map app]. now rewrite IH.
Qed.

(** X14.  Merging a sequence with itself gives every element twice in a
    row, in the original order: nothing is removed as a duplicate. *)
Theorem merge_tracks_self (A : list string) :
  merge_tracks A A = flat_map (fun u => [u; u]) A.
Proof. rewrite merge_tracks_interleave. apply interleave_self. Qed.
